(** * The dd-trace instrumenter: a shallow embedding of
    [packages/dd-trace/src/instrumenter.js] and the properties of its
    configuration resolver, wrap engine and plugin orchestrator.

    Embedded are [getConfig], [getPrepatchWrappedFunction] and the class
    [Instrumenter] but for [unwrap] and [unwrapExport], which no property
    below is about. *)

From Stdlib Require Import Ascii QArith Lia.
From stdpp Require Import base option list gmap strings.

Set Default Proof Using "Type".

(** ** Values

    Objects are known by their location in the store; property keys are
    strings or symbols. *)

Definition loc := nat.

Inductive value :=
| VUndefined
| VNull
| VBool (b : bool)
| VStr (s : string)
| VSym (n : nat)
| VRef (l : loc).

Inductive pkey :=
| KStr (s : string)
| KSym (n : nat).

#[global] Instance value_eq_dec : EqDecision value.
Proof. solve_decision. Defined.

#[global] Instance pkey_eq_dec : EqDecision pkey.
Proof. solve_decision. Defined.

(** What a [throw] carries: the [Error] of [wrap], a [TypeError] of the
    language, or whatever a collaborator throws. *)
Inductive error :=
| ExpectedMethod (nodule : loc) (name : pkey)
| TypeError
| Thrown (tag : nat).

(** ** Computations that mutate a store and may throw

    A JavaScript statement either completes or throws, and the mutations
    made before a [throw] stay: both results carry the store. *)

Inductive result (S A : Type) :=
| Ret (a : A) (s : S)
| Exn (e : error) (s : S).
Arguments Ret {S A} a s.
Arguments Exn {S A} e s.

Definition M (S A : Type) : Type := S -> result S A.

Definition ret {S A} (a : A) : M S A := fun s => Ret a s.

Definition throw {S A} (e : error) : M S A := fun s => Exn e s.

Definition bind {S A B} (m : M S A) (k : A -> M S B) : M S B :=
  fun s => match m s with
           | Ret a s' => k a s'
           | Exn e s' => Exn e s'
           end.

(** [try { m } catch (e) { h e }] *)
Definition try_catch {S A} (m : M S A) (h : error -> M S A) : M S A :=
  fun s => match m s with
           | Ret a s' => Ret a s'
           | Exn e s' => h e s'
           end.

Definition get {S} : M S S := fun s => Ret s s.

Definition modify {S} (f : S -> S) : M S unit := fun s => Ret tt (f s).

Definition state_of {S A} (r : result S A) : S :=
  match r with Ret _ s => s | Exn _ s => s end.

Declare Scope js_scope.
Delimit Scope js_scope with js.
Notation "'let*' x ':=' c1 'in' c2" := (bind c1 (fun x => c2))
  (at level 10, x name, c1 at level 100, c2 at level 200) : js_scope.
Notation "c1 >> c2" := (bind c1 (fun _ => c2))
  (at level 100, c2 at level 200, right associativity) : js_scope.
Open Scope js_scope.

(** [for (const x of l) body(x)] and [l.forEach(body)]: the first throw
    leaves the loop. *)
Fixpoint for_each {S A} (l : list A) (body : A -> M S unit) : M S unit :=
  match l with
  | [] => ret tt
  | x :: xs => body x >> for_each xs body
  end.

(** A loop whose body may execute [return]: the body says whether the
    enclosing function goes on ([Next]) or has returned ([Returned]). *)
Inductive flow := Next | Returned.

Fixpoint for_of {S A} (l : list A) (body : A -> M S flow) : M S flow :=
  match l with
  | [] => ret Next
  | x :: xs =>
      let* f := body x in
      match f with
      | Next => for_of xs body
      | Returned => ret Returned
      end
  end.

(** [[].concat(x)]: an array argument is spread, anything else becomes a
    one-element array. *)
Inductive one_or_many (A : Type) :=
| One (a : A)
| Many (l : list A).
Arguments One {A} a.
Arguments Many {A} l.

Definition concat_arg {A} (x : one_or_many A) : list A :=
  match x with One a => [a] | Many l => l end.

(** ** JavaScript [Map] and [Set]

    Both iterate in insertion order, so they are association lists and
    lists; keys are compared by identity. *)

Section Collections.
Context {K V : Type} `{EqDecision K}.

Definition jsmap : Type := list (K * V).

Fixpoint map_get (m : jsmap) (k : K) : option V :=
  match m with
  | [] => None
  | (k', v) :: m' => if decide (k' = k) then Some v else map_get m' k
  end.

Definition map_has (m : jsmap) (k : K) : bool :=
  match map_get m k with Some _ => true | None => false end.

(** [m.set(k, v)]: an existing key keeps its position. *)
Fixpoint map_set (m : jsmap) (k : K) (v : V) : jsmap :=
  match m with
  | [] => [(k, v)]
  | (k', v') :: m' =>
      if decide (k' = k) then (k, v) :: m' else (k', v') :: map_set m' k v
  end.

Fixpoint map_delete (m : jsmap) (k : K) : jsmap :=
  match m with
  | [] => []
  | (k', v') :: m' =>
      if decide (k' = k) then map_delete m' k else (k', v') :: map_delete m' k
  end.

Definition map_keys (m : jsmap) : list K := m.*1.

Definition set_has (s : list K) (k : K) : bool := bool_decide (k ∈ s).

Definition set_add (s : list K) (k : K) : list K :=
  if set_has s k then s else s ++ [k].
End Collections.
Arguments jsmap : clear implicits.

(** ** Heap objects

    Targets of the wrap engine are objects whose members are own data
    properties.  A function is an object that has code. *)

(** What a function does when it is called.  [Layer w original name] is
    the function an integration's wrapper factory [w] returned for
    [wrapper(original, name)]; [PrepatchWrapped fn] is the closure built by
    [getPrepatchWrappedFunction(fn)]; [ExportShim m] is the [shim] of
    [wrapExport(m, _)]. *)
Inductive code :=
| Native (n : nat)
| Layer (w : nat) (original name : value)
| PrepatchWrapped (fn : value)
| ExportShim (moduleExports : loc).

Record prop := { p_value : value; p_enumerable : bool }.

Record object := { o_call : option code; o_props : jsmap pkey prop }.

(** The store the wrap engine works on: the objects, and the calls made
    to [shimmer.wrap], oldest first. *)
Record World := {
  objs : gmap loc object;
  shimmed : list (loc * pkey)
}.

(** The object at [l] becomes [o]. *)
Definition store (l : loc) (o : object) (w : World) : World :=
  {| objs := <[l := o]> (objs w); shimmed := shimmed w |}.

Definition own (w : World) (l : loc) (k : pkey) : option prop :=
  match objs w !! l with
  | Some o => map_get (o_props o) k
  | None => None
  end.

(** [o[k]] *)
Definition get_prop (w : World) (l : loc) (k : pkey) : value :=
  match own w l k with Some p => p_value p | None => VUndefined end.

(** [v[k]]: reading a member of [undefined] or [null] throws. *)
Definition get_member (v : value) (k : pkey) : M World value :=
  fun w => match v with
           | VRef l => Ret (get_prop w l k) w
           | VUndefined | VNull => Exn TypeError w
           | _ => Ret VUndefined w
           end.

(** [typeof v === 'function'] *)
Definition is_function (w : World) (v : value) : bool :=
  match v with
  | VRef l => match objs w !! l with
              | Some o => bool_decide (is_Some (o_call o))
              | None => false
              end
  | _ => false
  end.

Definition truthy (v : value) : bool :=
  match v with
  | VUndefined | VNull | VBool false | VStr EmptyString => false
  | _ => true
  end.

(** [Reflect.ownKeys(o).includes(k)] and [o.hasOwnProperty(k)] *)
Definition has_own (w : World) (l : loc) (k : pkey) : bool :=
  bool_decide (is_Some (own w l k)).

(** [Object.defineProperty(v, k, {value, enumerable})]: throws on a
    value that is not an object. *)
Definition define_property (v : value) (k : pkey) (p : prop) : M World unit :=
  fun w => match v with
           | VRef l =>
               match objs w !! l with
               | Some o =>
                   Ret tt (store l {| o_call := o_call o;
                                      o_props := map_set (o_props o) k p |} w)
               | None => Exn TypeError w
               end
           | _ => Exn TypeError w
           end.

(** [o[k] = x]: an own property keeps its attributes, a new one is
    enumerable. *)
Definition assign (l : loc) (k : pkey) (x : value) : M World unit :=
  fun w =>
    let enum := match own w l k with Some p => p_enumerable p | None => true end in
    define_property (VRef l) k {| p_value := x; p_enumerable := enum |} w.

(** A new function object. *)
Definition new_function (c : code) (props : jsmap pkey prop) : M World loc :=
  fun w =>
    let l := fresh (dom (objs w)) in
    Ret l (store l {| o_call := Some c; o_props := props |} w).

Definition _datadog_patched : pkey := KStr "_datadog_patched".
Definition _datadog_wrapped : pkey := KStr "_datadog_wrapped".
Definition _datadog_wrapper : pkey := KStr "_datadog_wrapper".

(** ** Wrapper factories *)

(** The [wrapper] argument of [wrap] is either the engine's own
    [getPrepatchWrappedFunction] or a factory of an integration. *)
Inductive wrapper :=
| GetPrepatchWrappedFunction
| Factory (w : nat).

(** [getPrepatchWrappedFunction(fn)]: the closure [prepatchWrapped], with
    [prepatchWrapped._datadog_wrapped = fn]. *)
Definition getPrepatchWrappedFunction (fn : value) : M World value :=
  let* l := new_function (PrepatchWrapped fn)
              [(_datadog_wrapped, {| p_value := fn; p_enumerable := true |})] in
  ret (VRef l).

(** What [prepatchWrapped] calls: [prepatchWrapped._datadog_wrapped || fn]. *)
Definition fnToCall (w : World) (prepatchWrapped : loc) : option value :=
  match objs w !! prepatchWrapped with
  | Some {| o_call := Some (PrepatchWrapped fn) |} =>
      let v := get_prop w prepatchWrapped _datadog_wrapped in
      Some (if truthy v then v else fn)
  | _ => None
  end.

(** Modelled from the spec: the factories of the integrations, which are
    not part of this file.  The spec, section 1, has them turn "function Y"
    into "function Y, wrapped with collaborator-supplied before/after
    behavior": a call [wrapper(original, name)] returns a new function
    around [original]. *)
Definition call_factory (f : nat) (original name : value) : M World value :=
  let* l := new_function (Layer f original name) [] in
  ret (VRef l).

Definition call_wrapper (wr : wrapper) (original name : value) : M World value :=
  match wr with
  | GetPrepatchWrappedFunction => getPrepatchWrappedFunction original
  | Factory f => call_factory f original name
  end.

Definition key_value (k : pkey) : value :=
  match k with KStr s => VStr s | KSym n => VSym n end.

(** Modelled from the spec: [shimmer.wrap], the third-party interception
    primitive, which the spec, section 4.3, has "replace the member with a
    new callable": the callable is what the callback returns for the
    member's current value. *)
Definition shimmer_wrap (nodule : loc) (name : pkey)
    (cb : value -> pkey -> M World value) : M World unit :=
  modify (fun w => {| objs := objs w; shimmed := shimmed w ++ [(nodule, name)] |}) >>
  let* original := get_member (VRef nodule) name in
  let* wrapped := cb original name in
  assign nodule name wrapped.

Definition shimmer_calls (w : World) (nodule : loc) (name : pkey) : nat :=
  length (filter (fun c => c = (nodule, name)) (shimmed w)).

(** ** The wrap engine *)

(** The first pair of loops of [wrap]: everything to be wrapped exists. *)
Definition check_method (nodule : loc) (name : pkey) : M World unit :=
  let* member := get_member (VRef nodule) name in
  let* w := get in
  if is_function w member then ret tt else throw (ExpectedMethod nodule name).

Definition validate (nodules : list loc) (names : list pkey) : M World unit :=
  for_each nodules (fun nodule =>
    for_each names (fun name => check_method nodule name)).

(** The callback [wrap] hands to [shimmer.wrap]: the symbol-keyed own
    properties of [original] that [wrapped] lacks are copied over. *)
Definition copy_symbols (original wrapped : value) : M World unit :=
  let* w := get in
  let props := match original with
               | VRef l => match objs w !! l with
                           | Some o => o_props o
                           | None => []
                           end
               | _ => []
               end in
  for_each props (fun '(key, p) =>
    match key, wrapped with
    | KSym _, VRef lw =>
        let* w' := get in
        if has_own w' lw key then ret tt else define_property wrapped key p
    | KSym _, _ => define_property wrapped key p
    | KStr _, _ => ret tt
    end).

Definition wrap_callback (wr : wrapper) (original : value) (name : pkey)
    : M World value :=
  let* wrapped := call_wrapper wr original (key_value name) in
  copy_symbols original wrapped >>
  ret wrapped.

(** The body of the second pair of loops. *)
Definition wrap_member (wr : wrapper) (nodule : loc) (name : pkey) : M World flow :=
  let* member := get_member (VRef nodule) name in
  define_property member _datadog_patched
    {| p_value := VBool true; p_enumerable := false |} >>
  let* member := get_member (VRef nodule) name in
  let* w := get in
  match member with
  | VRef f =>
      if has_own w f _datadog_wrapped then
        let* current := get_member member _datadog_wrapped in
        let* layered := call_wrapper wr current VUndefined in
        assign f _datadog_wrapped layered >>
        ret Returned
      else
        shimmer_wrap nodule name (wrap_callback wr) >>
        ret Next
  | _ => throw TypeError
  end.

Definition wrap (nodules : one_or_many loc) (names : one_or_many pkey)
    (wr : wrapper) : M World unit :=
  let nodules := concat_arg nodules in
  let names := concat_arg names in
  validate nodules names >>
  for_of nodules (fun nodule =>
    for_of names (fun name => wrap_member wr nodule name)) >>
  ret tt.

(** [Object.keys(o)]: the enumerable own string keys. *)
Definition object_keys (w : World) (l : loc) : list pkey :=
  match objs w !! l with
  | Some o =>
      omap (fun '(k, p) =>
              match k with
              | KStr _ => if p_enumerable p then Some k else None
              | KSym _ => None
              end) (o_props o)
  | None => []
  end.

Definition wrapExport (moduleExports wrapper : value) : M World value :=
  let* w := get in
  if negb (is_function w moduleExports) then ret moduleExports else
  match moduleExports with
  | VRef m =>
      let props := object_keys w m in
      let* shim := new_function (ExportShim m) [] in
      for_each props (fun prop =>
        let* x := get_member moduleExports prop in
        assign shim prop x) >>
      assign m _datadog_wrapper wrapper >>
      ret (VRef shim)
  | _ => ret moduleExports
  end.

(** ** Numbers and strings of the configuration resolver *)

(** The sample rate is only compared with 0 and 1, which is exact on
    doubles: a number is [NaN], an infinity or a rational. *)
Inductive number :=
| NaN
| NegInfinity
| PosInfinity
| Finite (q : Q).

Definition Math_max (x y : number) : number :=
  match x, y with
  | NaN, _ | _, NaN => NaN
  | PosInfinity, _ | _, PosInfinity => PosInfinity
  | NegInfinity, z | z, NegInfinity => z
  | Finite a, Finite b => if Qle_bool a b then Finite b else Finite a
  end.

Definition Math_min (x y : number) : number :=
  match x, y with
  | NaN, _ | _, NaN => NaN
  | NegInfinity, _ | _, NegInfinity => NegInfinity
  | PosInfinity, z | z, PosInfinity => z
  | Finite a, Finite b => if Qle_bool a b then Finite a else Finite b
  end.

Definition Number_isNaN (x : number) : bool :=
  match x with NaN => true | _ => false end.

(** Names and environment values are ASCII strings; [toUpperCase],
    [toLowerCase], the regular expression of [cleanEnv] and [trim] are
    given on that alphabet. *)
Fixpoint map_string (f : ascii -> ascii) (s : string) : string :=
  match s with
  | EmptyString => EmptyString
  | String c s' => String (f c) (map_string f s')
  end.

Definition between (lo hi : nat) (c : ascii) : bool :=
  (lo <=? nat_of_ascii c)%nat && (nat_of_ascii c <=? hi)%nat.

Definition is_lower : ascii -> bool := between 97 122.
Definition is_upper : ascii -> bool := between 65 90.
Definition is_digit : ascii -> bool := between 48 57.

Definition upper_char (c : ascii) : ascii :=
  if is_lower c then ascii_of_nat (nat_of_ascii c - 32) else c.

Definition lower_char (c : ascii) : ascii :=
  if is_upper c then ascii_of_nat (nat_of_ascii c + 32) else c.

Definition toUpperCase : string -> string := map_string upper_char.
Definition toLowerCase : string -> string := map_string lower_char.

(** [s.replace(/[^a-z0-9_]/ig, '_')] *)
Definition clean_char (c : ascii) : ascii :=
  if is_lower c || is_upper c || is_digit c || bool_decide (c = "_"%char)
  then c else "_"%char.

(** [s.trim()] *)
Definition is_space (c : ascii) : bool :=
  between 9 13 c || bool_decide (c = " "%char).

Fixpoint trim_start (s : string) : string :=
  match s with
  | String c s' => if is_space c then trim_start s' else s
  | EmptyString => EmptyString
  end.

Fixpoint trim_end (s : string) : string :=
  match s with
  | EmptyString => EmptyString
  | String c s' =>
      match trim_end s' with
      | EmptyString => if is_space c then EmptyString else String c EmptyString
      | t => String c t
      end
  end.

Definition trim (s : string) : string := trim_end (trim_start s).

(** A name between double quotes, for the log messages. *)
Definition quoted (s : string) : string :=
  String (ascii_of_nat 34) (s +:+ String (ascii_of_nat 34) EmptyString).

(** [s.split(',')] *)
Fixpoint split_comma (s : string) : list string :=
  match s with
  | EmptyString => [EmptyString]
  | String c s' =>
      if bool_decide (c = ","%char) then EmptyString :: split_comma s'
      else match split_comma s' with
           | piece :: rest => String c piece :: rest
           | [] => [String c EmptyString]
           end
  end.

(** ** Configurations, plugins and the orchestrator's state *)

Inductive analytics_value :=
| ABool (b : bool)
| ANum (x : number).

(** The two fields of a configuration object the instrumenter reads or
    writes; an absent field is [None]. *)
Record Config := {
  enabled : option bool;
  analytics : option analytics_value
}.

Definition empty_config : Config := {| enabled := None; analytics := None |}.

Record Meta := { name : string; config : Config }.

(** The [config] argument of [use]: absent, a boolean shorthand or an
    object. *)
Inductive use_config :=
| UseUndefined
| UseBoolean (b : bool)
| UseObject (c : Config).

(** The [config] argument of [enable], of which [config.plugins] is read
    and compared with [false]. *)
Record enable_config := { cfg_plugins : option bool }.

(** An instrumentation is an object of the catalog, known by its identity.
    A plugin is one instrumentation or an array of them; a catalog look-up
    that finds nothing yields [undefined]. *)
Definition Instr := nat.

Inductive plugin :=
| PUndefined
| PInstr (i : Instr)
| PArray (a : nat) (items : list Instr).

#[global] Instance plugin_eq_dec : EqDecision plugin.
Proof. solve_decision. Defined.

(** [[].concat(plugin)]; [None] is an [undefined] element. *)
Definition concat_plugin (p : plugin) : list (option Instr) :=
  match p with
  | PUndefined => [None]
  | PInstr i => [Some i]
  | PArray _ items => Some <$> items
  end.

(** The calls to collaborators that leave no mark on the store: the
    logger, the metrics sink, and each dispatch to a capability of an
    integration. *)
Inductive event :=
| LogDebug (message : string)
| LogError (e : error)
| MetricBoolean (metric : string) (v : bool) (tag : string)
| MetricIncrement (metric : string)
| CallPatch (i : Instr) (moduleExports : value)
| CallUnpatch (i : Instr) (moduleExports : value).

#[global] Instance error_eq_dec : EqDecision error.
Proof. solve_decision. Defined.

#[global] Instance event_eq_dec : EqDecision event.
Proof. solve_decision. Defined.

Record State := {
  _enabled : bool;
  _plugins : jsmap plugin Meta;
  _instrumented : jsmap (option Instr) (list value);
  _disabledPlugins : list string;
  world : World;
  trace : list event
}.

Definition set_enabled (b : bool) (s : State) : State :=
  {| _enabled := b; _plugins := _plugins s; _instrumented := _instrumented s;
     _disabledPlugins := _disabledPlugins s; world := world s; trace := trace s |}.

Definition set_plugins (m : jsmap plugin Meta) (s : State) : State :=
  {| _enabled := _enabled s; _plugins := m; _instrumented := _instrumented s;
     _disabledPlugins := _disabledPlugins s; world := world s; trace := trace s |}.

Definition set_instrumented (m : jsmap (option Instr) (list value)) (s : State) : State :=
  {| _enabled := _enabled s; _plugins := _plugins s; _instrumented := m;
     _disabledPlugins := _disabledPlugins s; world := world s; trace := trace s |}.

Definition set_world (w : World) (s : State) : State :=
  {| _enabled := _enabled s; _plugins := _plugins s; _instrumented := _instrumented s;
     _disabledPlugins := _disabledPlugins s; world := w; trace := trace s |}.

Definition log (e : event) : M State unit :=
  modify (fun s =>
    {| _enabled := _enabled s; _plugins := _plugins s; _instrumented := _instrumented s;
       _disabledPlugins := _disabledPlugins s; world := world s; trace := trace s ++ [e] |}).

(** A computation on the objects, run by the orchestrator. *)
Definition in_world {A} (m : M World A) : M State A :=
  fun s => match m (world s) with
           | Ret a w => Ret a (set_world w s)
           | Exn e w => Exn e (set_world w s)
           end.

(** ** The collaborators

    What [instrumenter.js] requires and calls but does not define: the
    capabilities of the integrations, and the platform with its catalog,
    environment and loader, to which [./util] and the language's
    string-to-number conversion are added here.  An integration is handed
    the instrumenter for [wrap] and [unwrap], so its capabilities act on
    the objects; the loader calls back into the orchestrator, so it acts on
    the whole state. *)
Class Integrations := {
  integration_patch : Instr -> value -> Config -> M World value;
  integration_unpatch : Instr -> value -> M World unit;
  integration_prepatch : Instr -> option (value -> M World (list (loc * list pkey)))
}.

Class Platform := {
  plugins : jsmap string plugin;
  env : string -> option string;
  isTrue : option string -> bool;
  isFalse : option string -> bool;
  StringToNumber : string -> number;
  loader_load : option Instr -> Config -> M State unit;
  loader_reload : jsmap plugin Meta -> M State unit;
  loader_preload : option (jsmap plugin Meta -> M State unit)
}.

Section Instrumenter.
Context {I : Integrations} {P : Platform}.

(** [ToNumber] of an environment value: [undefined] is [NaN]. *)
Definition ToNumber (v : option string) : number :=
  match v with
  | None => NaN
  | Some s => StringToNumber s
  end.

Definition collectDisabledPlugins : list string :=
  match env "DD_TRACE_DISABLED_PLUGINS" with
  | None | Some EmptyString => []
  | Some disabldPlugins =>
      foldl (fun set plugin => set_add set (trim plugin)) []
            (split_comma disabldPlugins)
  end.

Definition cleanEnv (name : string) : option string :=
  env (map_string clean_char ("DD_TRACE_" +:+ toUpperCase name)).

(** [getConfig(name, config = {})]; the configuration object is updated
    in place and returned. *)
Definition getConfig (name : string) (config : option Config) : Config :=
  let config := default empty_config config in
  if bool_decide (name = EmptyString) then config else
  let config :=
    match cleanEnv (name +:+ "_ENABLED") with
    | Some enabled =>
        {| enabled := Some (isTrue (Some enabled)); analytics := analytics config |}
    | None => config
    end in
  let analyticsEnabled := cleanEnv (name +:+ "_ANALYTICS_ENABLED") in
  let analyticsSampleRate :=
    Math_min (Math_max (ToNumber (cleanEnv (name +:+ "_ANALYTICS_SAMPLE_RATE")))
                       (Finite 0)) (Finite 1) in
  if isFalse analyticsEnabled then
    {| enabled := enabled config; analytics := Some (ABool false) |}
  else if negb (Number_isNaN analyticsSampleRate) then
    {| enabled := enabled config; analytics := Some (ANum analyticsSampleRate) |}
  else if isTrue analyticsEnabled then
    {| enabled := enabled config; analytics := Some (ABool true) |}
  else config.

(** [plugins[name]] *)
Definition catalog (name : string) : plugin :=
  default PUndefined (map_get plugins name).

Definition preload : M State unit :=
  match loader_preload with
  | None => ret tt
  | Some loader_preload =>
      let* s := get in
      let pluginsMap :=
        foldl (fun m name =>
                 map_set m (catalog name)
                         {| name := name; config := getConfig name None |})
              []
              (List.filter (fun name => negb (map_has (_plugins s) (catalog name)))
                           (map_keys plugins)) in
      loader_preload pluginsMap
  end.

(** [new Instrumenter(tracer)], over the objects [w]. *)
Definition new_Instrumenter (w : World) : result State unit :=
  preload {| _enabled := false; _plugins := []; _instrumented := [];
             _disabledPlugins := collectDisabledPlugins; world := w; trace := [] |}.

(** [delete v[k]] *)
Definition delete_property (v : value) (k : pkey) : M World unit :=
  fun w => match v with
           | VRef l =>
               match objs w !! l with
               | Some o => Ret tt (store l {| o_call := o_call o;
                                              o_props := map_delete (o_props o) k |} w)
               | None => Exn TypeError w
               end
           | VUndefined | VNull => Exn TypeError w
           | _ => Ret tt w
           end.

Definition prepatch (instrumentation : Instr) (moduleExports : value) : M State unit :=
  match integration_prepatch instrumentation with
  | None => ret tt
  | Some instrumentation_prepatch =>
      in_world (
        let* patches := instrumentation_prepatch moduleExports in
        for_each patches (fun '(object, methods) =>
          for_each methods (fun name =>
            wrap (One object) (One name) GetPrepatchWrappedFunction >>
            let* member := get_member (VRef object) name in
            delete_property member _datadog_patched)))
  end.

Definition patch (instrumentation : option Instr) (moduleExports : value)
    (config : Config) : M State value :=
  let* s := get in
  let* instrumented :=
    match map_get (_instrumented s) instrumentation with
    | Some instrumented => ret instrumented
    | None =>
        modify (set_instrumented (map_set (_instrumented s) instrumentation [])) >>
        ret []
    end in
  if set_has instrumented moduleExports then ret VUndefined else
  modify (fun s => set_instrumented
                     (map_set (_instrumented s) instrumentation
                              (set_add instrumented moduleExports)) s) >>
  match instrumentation with
  | Some i =>
      log (CallPatch i moduleExports) >>
      in_world (integration_patch i moduleExports config)
  | None => throw TypeError
  end.

Definition unpatch (instrumentation : option Instr) : M State unit :=
  let* s := get in
  match map_get (_instrumented s) instrumentation with
  | Some instrumented =>
      for_each instrumented (fun moduleExports =>
        try_catch
          match instrumentation with
          | Some i =>
              log (CallUnpatch i moduleExports) >>
              in_world (integration_unpatch i moduleExports)
          | None => throw TypeError
          end
          (fun e => log (LogError e)))
  | None => ret tt
  end.

Definition unload (plugin : plugin) : M State unit :=
  for_each (concat_plugin plugin) (fun instrumentation =>
    unpatch instrumentation >>
    modify (fun s => set_instrumented (map_delete (_instrumented s) instrumentation) s)) >>
  let* s := get in
  match map_get (_plugins s) plugin with
  | Some meta =>
      modify (set_plugins (map_delete (_plugins s) plugin)) >>
      log (MetricBoolean "datadog.tracer.node.plugin.enabled.by.name" false
                         ("name:" +:+ name meta))
  | None => ret tt
  end.

(** The [try] block of [load]. *)
Definition load_instrumentations (plugin : plugin) (meta : Meta) : M State unit :=
  for_each (concat_plugin plugin) (fun instrumentation =>
    loader_load instrumentation (config meta)).

(** What [load] does between its guard and its [catch]. *)
Definition load_step (plugin : plugin) (meta : Meta) : M State unit :=
  let enabled := negb (bool_decide (enabled (config meta) = Some false)) in
  log (MetricBoolean "datadog.tracer.node.plugin.enabled.by.name" enabled
                     ("name:" +:+ name meta)) >>
  load_instrumentations plugin meta.

Definition load (plugin : plugin) (meta : Meta) : M State unit :=
  let* s := get in
  if negb (_enabled s) then ret tt else
  let enabled := negb (bool_decide (enabled (config meta) = Some false)) in
  log (MetricBoolean "datadog.tracer.node.plugin.enabled.by.name" enabled
                     ("name:" +:+ name meta)) >>
  try_catch (load_instrumentations plugin meta)
    (fun e =>
       log (LogError e) >>
       unload plugin >>
       log (LogDebug ("Error while trying to patch " +:+ name meta
                      +:+ ". The plugin has been disabled.")) >>
       log (MetricIncrement "datadog.tracer.node.plugin.errors")).

Definition _set (plugin : plugin) (meta : Meta) : M State unit :=
  let* s := get in
  if set_has (_disabledPlugins s) (name meta) then
    log (LogDebug ("Plugin " +:+ quoted (name meta)
                   +:+ " was disabled via configuration option."))
  else
    modify (fun s => set_plugins (map_set (_plugins s) plugin meta) s) >>
    load plugin meta.

Definition use (name : string) (config : use_config) : M State unit :=
  let config :=
    match config with
    | UseBoolean b => Some {| enabled := Some b; analytics := None |}
    | UseObject c => Some c
    | UseUndefined => None
    end in
  let config := getConfig name config in
  try_catch
    (_set (catalog (toLowerCase name)) {| name := name; config := config |})
    (fun e => log (LogDebug ("Could not find a plugin named "
                             +:+ quoted name +:+ "."))) >>
  let* s := get in
  if _enabled s then loader_reload (_plugins s) else ret tt.

Definition enable (config : option enable_config) : M State unit :=
  let config := default {| cfg_plugins := None |} config in
  modify (set_enabled true) >>
  (if negb (bool_decide (cfg_plugins config = Some false)) then
     let* s := get in
     for_each
       (List.filter (fun name => negb (map_has (_plugins s) (catalog name)))
                    (map_keys plugins))
       (fun name => _set (catalog name)
                         {| name := name; config := getConfig name None |})
   else ret tt) >>
  let* s := get in
  loader_reload (_plugins s).

Definition disable : M State unit :=
  let* s := get in
  for_each (map_keys (_instrumented s)) unpatch >>
  modify (set_plugins []) >>
  modify (set_enabled false) >>
  let* s := get in
  loader_reload (_plugins s).
End Instrumenter.

(** ** Concrete objects and collaborators *)

Definition function_object (c : code) : object :=
  {| o_call := Some c; o_props := [] |}.

Definition member (v : value) : prop := {| p_value := v; p_enumerable := true |}.

(** Two targets: [A] (at 0) has the functions [f] and [g], [B] (at 3) has
    only [f]. *)
Definition two_targets : World :=
  {| objs := list_to_map
       [(0, {| o_call := None;
               o_props := [(KStr "f", member (VRef 1)); (KStr "g", member (VRef 2))] |});
        (1, function_object (Native 1));
        (2, function_object (Native 2));
        (3, {| o_call := None; o_props := [(KStr "f", member (VRef 4))] |});
        (4, function_object (Native 4))];
     shimmed := [] |}.

(** [isTrue] and [isFalse] of [./util] on the strings of the examples. *)
Definition demo_isTrue (v : option string) : bool :=
  bool_decide (v = Some "true" \/ v = Some "1").

Definition demo_isFalse (v : option string) : bool :=
  bool_decide (v = Some "false" \/ v = Some "0").

Definition demo_env (key : string) : option string :=
  if bool_decide (key = "DD_TRACE_DISABLED_PLUGINS") then Some "foo"
  else if bool_decide (key = "DD_TRACE_BAR_ANALYTICS_ENABLED") then Some "false"
  else if bool_decide (key = "DD_TRACE_BAR_ANALYTICS_SAMPLE_RATE") then Some "0.5"
  else if bool_decide (key = "DD_TRACE_BAZ_ANALYTICS_SAMPLE_RATE") then Some "0.3"
  else if bool_decide (key = "DD_TRACE_QUX_ANALYTICS_ENABLED") then Some "true"
  else None.

Definition demo_StringToNumber (s : string) : number :=
  if bool_decide (s = "0.5") then Finite (1 # 2)
  else if bool_decide (s = "0.3") then Finite (3 # 10)
  else if bool_decide (s = "7") then Finite 7
  else NaN.

(** A catalog of three plugins; the component every instrumentation
    targets is the object at 0, already loaded, so the loader patches it at
    once.  The [patch] of instrumentation 2 throws; the others wrap the
    member [f]. *)
Definition demo_patch (i : Instr) (moduleExports : value) (_ : Config)
    : M World value :=
  if bool_decide (i = 2) then throw (Thrown 2) else
  match moduleExports with
  | VRef l => wrap (One l) (One (KStr "f")) (Factory i) >> ret VUndefined
  | _ => ret VUndefined
  end.

(** Instrumentation 3 stages the member [f] of its component. *)
Definition demo_prepatch (i : Instr)
    : option (value -> M World (list (loc * list pkey))) :=
  if bool_decide (i = 3) then
    Some (fun moduleExports =>
            match moduleExports with
            | VRef l => ret [(l, [KStr "f"])]
            | _ => ret []
            end)
  else None.

Definition demo_integrations : Integrations :=
  {| integration_patch := demo_patch;
     integration_unpatch := fun _ _ => ret tt;
     integration_prepatch := demo_prepatch |}.

Definition demo_platform : Platform :=
  {| plugins := [("foo", PInstr 1); ("bar", PInstr 2); ("baz", PArray 0 [3; 4])];
     env := demo_env;
     isTrue := demo_isTrue;
     isFalse := demo_isFalse;
     StringToNumber := demo_StringToNumber;
     loader_load := fun instrumentation config =>
       patch (I := demo_integrations) instrumentation (VRef 0) config >> ret tt;
     loader_reload := fun _ => ret tt;
     loader_preload := None |}.

(** ** Statements the properties refer to *)

(** [r] is [x] clamped to the interval from 0 to 1. *)
Definition clamped (x : number) (r : Q) : Prop :=
  match x with
  | NaN => False
  | NegInfinity => r = 0%Q
  | PosInfinity => r = 1%Q
  | Finite q =>
      (q < 0 /\ r = 0)%Q \/ (0 <= q <= 1 /\ r == q)%Q \/ (1 < q /\ r = 1)%Q
  end.

(** How often the [patch] capability of instrumentation [i] has been
    invoked on [moduleExports]. *)
Definition patch_calls (i : Instr) (moduleExports : value) (s : State) : nat :=
  length (filter (fun ev => ev = CallPatch i moduleExports) (trace s)).

(** [moduleExports] is recorded in the instrumented set of
    [instrumentation]. *)
Definition is_instrumented (s : State) (instrumentation : option Instr)
    (moduleExports : value) : bool :=
  match map_get (_instrumented s) instrumentation with
  | Some instrumented => set_has instrumented moduleExports
  | None => false
  end.

(** [s'] has the fields of [s] other than the objects and the trace. *)
Definition same_registry (s s' : State) : Prop :=
  _enabled s' = _enabled s /\ _plugins s' = _plugins s /\
  _instrumented s' = _instrumented s /\ _disabledPlugins s' = _disabledPlugins s.

(** The sentence of the specification on [unpatch], at one state: once
    [unpatch] has run, the instrumented set of the instrumentation is gone
    and a [patch] of the pair invokes the capability again. *)
Definition unpatch_forgets {I : Integrations} (i : Instr) (moduleExports : value)
    (config : Config) (s : State) : Prop :=
  let s1 := state_of (unpatch (Some i) s) in
  map_get (_instrumented s1) (Some i) = None /\
  patch_calls i moduleExports (state_of (patch (Some i) moduleExports config s1))
  = S (patch_calls i moduleExports s1).

(** A new instrumenter over the two targets, and the same after
    instrumentation 1 has patched the component at 0. *)
Definition fresh_instrumenter : State :=
  state_of (new_Instrumenter (P := demo_platform) two_targets).

Definition patched_once : State :=
  state_of (patch (I := demo_integrations) (Some 1) (VRef 0) empty_config
              fresh_instrumenter).

(** The instrumenter once the engine is enabled, and the registration of
    the plugin [bar], whose [patch] throws. *)
Definition enabled_instrumenter : State := set_enabled true fresh_instrumenter.

Definition bar_meta : Meta := {| name := "bar"; config := empty_config |}.

(** The state the engine is in after [enable()]. *)
Definition after_enable : State :=
  state_of (enable (I := demo_integrations) (P := demo_platform) None
              fresh_instrumenter).

(** The two targets once [prepatch] has staged [A.f] for
    instrumentation 3. *)
Definition prepatched_f : World :=
  world (state_of (prepatch (I := demo_integrations) 3 (VRef 0) fresh_instrumenter)).

(** The chained-wrap sentence of the specification, at one member:
    wrapping it with [first] and then with [second] completes, and the
    interception primitive has been invoked once for the member. *)
Definition chained_wrap_once (w : World) (nodule : loc) (name : pkey)
    (first second : wrapper) : Prop :=
  exists w1 w2,
    wrap (One nodule) (One name) first w = Ret tt w1 /\
    wrap (One nodule) (One name) second w1 = Ret tt w2 /\
    shimmer_calls w2 nodule name = S (shimmer_calls w nodule name).

(** The function a wrapper builds around [original]. *)
Definition wrapper_code (wr : wrapper) (original name : value) : code :=
  match wr with
  | GetPrepatchWrappedFunction => PrepatchWrapped original
  | Factory f => Layer f original name
  end.

(** The code of the function at [l], if there is one. *)
Definition code_at (w : World) (l : loc) : option code :=
  match objs w !! l with
  | Some o => o_call o
  | None => None
  end.

(** The own properties a wrapper gives the function it builds. *)
Definition wrapper_props (wr : wrapper) (original : value) : jsmap pkey prop :=
  match wr with
  | GetPrepatchWrappedFunction =>
      [(_datadog_wrapped, {| p_value := original; p_enumerable := true |})]
  | Factory _ => []
  end.


(** ** The rest of the export wrapper *)

(** [unwrapExport(moduleExports)] *)
Definition unwrapExport (moduleExports : value) : M World value :=
  (if truthy moduleExports then
     let* wrapper := get_member moduleExports _datadog_wrapper in
     if truthy wrapper then
       match moduleExports with
       | VRef m => assign m _datadog_wrapper moduleExports
       | _ => throw TypeError
       end
     else ret tt
   else ret tt) >>
  ret moduleExports.


(** ** Statements of the further properties *)




(** The configuration object [use] hands to [getConfig]. *)
Definition use_argument (config : use_config) : option Config :=
  match config with
  | UseBoolean b => Some {| enabled := Some b; analytics := None |}
  | UseObject c => Some c
  | UseUndefined => None
  end.

(** The dispatches to [unpatch] capabilities recorded in a trace, oldest
    first. *)
Definition unpatch_calls (t : list event) : list (Instr * value) :=
  omap (fun ev => match ev with
                  | CallUnpatch i moduleExports => Some (i, moduleExports)
                  | _ => None
                  end) t.

(** The pairs an instrumented set stands for; the set of an [undefined]
    instrumentation has no capability to call. *)
Definition pairs_of (instrumentation : option Instr) (instrumented : list value)
    : list (Instr * value) :=
  match instrumentation with
  | Some i => pair i <$> instrumented
  | None => []
  end.

(** The instrumented pairs of a state, in the order [disable] visits
    them. *)
Definition instrumented_pairs (s : State) : list (Instr * value) :=
  flat_map (fun instrumentation =>
              pairs_of instrumentation
                       (default [] (map_get (_instrumented s) instrumentation)))
           (map_keys (_instrumented s)).

(** No registration carries a name of the disabled set. *)
Definition respects_disabled (s : State) : Prop :=
  Forall (fun entry => set_has (_disabledPlugins s) (name entry.2) = false)
         (_plugins s).

(** The demo platform with a loader that has the [preload] capability. *)
Definition preloading_platform : Platform :=
  {| plugins := plugins (Platform := demo_platform);
     env := demo_env;
     isTrue := demo_isTrue;
     isFalse := demo_isFalse;
     StringToNumber := demo_StringToNumber;
     loader_load := loader_load (Platform := demo_platform);
     loader_reload := fun _ => ret tt;
     loader_preload := Some (fun pluginsMap =>
       for_each pluginsMap (fun '(_, meta) =>
         log (LogDebug ("staged " +:+ name meta)))) |}.


(** [m] keeps the registry clear of disabled names. *)
Definition keeps_disabled {A} (m : M State A) : Prop :=
  forall s, respects_disabled s -> respects_disabled (state_of (m s)).

(** * Properties *)

(** ** The monad and the collections *)

Lemma bind_get {S B} (k : S -> M S B) (s : S) : bind get k s = k s s.
Proof. reflexivity. Qed.

Lemma bind_ret {S A B} (a : A) (k : A -> M S B) (s : S) : bind (ret a) k s = k a s.
Proof. reflexivity. Qed.

Lemma bind_Ret {S A B} (m : M S A) (k : A -> M S B) (s s' : S) (a : A) :
  m s = Ret a s' -> bind m k s = k a s'.
Proof. intros E. unfold bind. by rewrite E. Qed.

Lemma bind_Exn {S A B} (m : M S A) (k : A -> M S B) (s s' : S) (e : error) :
  m s = Exn e s' -> bind m k s = Exn e s'.
Proof. intros E. unfold bind. by rewrite E. Qed.

Lemma for_each_frame {S A} (l : list A) (body : A -> M S unit) (s : S) :
  (forall x s', x ∈ l -> body x s' = Ret tt s' \/ exists e, body x s' = Exn e s') ->
  for_each l body s = Ret tt s \/ exists e, for_each l body s = Exn e s.
Proof.
  induction l as [|x xs IH]; intros Hb; [by left|].
  cbn [for_each]. unfold bind.
  destruct (Hb x s) as [E|[e E]]; [by left| |]; rewrite E; [|eauto].
  apply IH. intros y s' Hy. apply Hb. by right.
Qed.

Lemma for_each_all {S A} (l : list A) (body : A -> M S unit) (s s' : S) :
  for_each l body s = Ret tt s' ->
  (forall x t, x ∈ l -> body x t = Ret tt t \/ exists e, body x t = Exn e t) ->
  forall x, x ∈ l -> body x s = Ret tt s.
Proof.
  induction l as [|y ys IH]; intros Hr Hb x Hx; [by apply elem_of_nil in Hx|].
  cbn [for_each] in Hr. unfold bind in Hr.
  destruct (Hb y s) as [E|[e E]]; [by left| |]; rewrite E in Hr; [|done].
  apply elem_of_cons in Hx as [->|Hx]; [done|].
  apply IH; [done| |done]. intros z t Hz. apply Hb. by right.
Qed.

Section CollectionFacts.
Context {K V : Type} `{EqDecision K}.
Implicit Types (m : jsmap K V) (k : K) (v : V).

Lemma map_get_set_eq m k v : map_get (map_set m k v) k = Some v.
Proof.
  induction m as [|[k' v'] m IH]; cbn.
  - by rewrite decide_True.
  - destruct (decide (k' = k)) as [->|Hne]; cbn.
    + by rewrite decide_True.
    + by rewrite decide_False.
Qed.

Lemma map_get_set_ne m k k' v : k <> k' -> map_get (map_set m k v) k' = map_get m k'.
Proof.
  intros Hne. induction m as [|[k0 v0] m IH]; cbn.
  - by rewrite decide_False.
  - destruct (decide (k0 = k)) as [->|Hne0]; cbn.
    + by rewrite !decide_False.
    + by rewrite IH.
Qed.

Lemma map_get_delete_eq m k : map_get (map_delete m k) k = None.
Proof.
  induction m as [|[k' v'] m IH]; cbn; [done|].
  destruct (decide (k' = k)) as [->|Hne]; cbn; [done|].
  by rewrite decide_False.
Qed.

Lemma map_get_delete_ne m k k' : k <> k' -> map_get (map_delete m k) k' = map_get m k'.
Proof.
  intros Hne. induction m as [|[k0 v0] m IH]; cbn; [done|].
  destruct (decide (k0 = k)) as [->|Hne0]; cbn.
  - by rewrite decide_False.
  - by rewrite IH.
Qed.

Lemma set_has_add (s : list K) k : set_has (set_add s k) k = true.
Proof.
  unfold set_add. destruct (set_has s k) eqn:E; [done|].
  unfold set_has. apply bool_decide_eq_true. apply elem_of_app. right.
  by apply list_elem_of_singleton.
Qed.
End CollectionFacts.

(** ** The wrap engine *)

Lemma check_method_frame nodule name w :
  (is_function w (get_prop w nodule name) = true /\
   check_method nodule name w = Ret tt w) \/
  (is_function w (get_prop w nodule name) = false /\
   check_method nodule name w = Exn (ExpectedMethod nodule name) w).
Proof.
  unfold check_method, bind, get, get_member.
  destruct (is_function w (get_prop w nodule name)); [by left|by right].
Qed.

Lemma validate_frame nodules names w :
  validate nodules names w = Ret tt w \/ exists e, validate nodules names w = Exn e w.
Proof.
  apply for_each_frame. intros nodule s' _.
  apply for_each_frame. intros name s'' _.
  destruct (check_method_frame nodule name s'') as [[_ E]|[_ E]]; eauto.
Qed.

Lemma validate_sound nodules names w :
  validate nodules names w = Ret tt w ->
  forall nodule name, nodule ∈ nodules -> name ∈ names ->
    is_function w (get_prop w nodule name) = true.
Proof.
  intros Hv nodule name Hn Hk.
  assert (Hin : for_each names (fun name => check_method nodule name) w = Ret tt w).
  { eapply (for_each_all nodules _ w w Hv); [|done].
    intros x t _. apply for_each_frame. intros k t' _.
    destruct (check_method_frame x k t') as [[_ E]|[_ E]]; eauto. }
  assert (Hc : check_method nodule name w = Ret tt w).
  { eapply (for_each_all names _ w w Hin); [|done].
    intros k t _. destruct (check_method_frame nodule k t) as [[_ E]|[_ E]]; eauto. }
  destruct (check_method_frame nodule name w) as [[Hf _]|[_ E]]; [done|congruence].
Qed.

(** C3. A batch in which some requested member of some target is missing
    or is not a function makes [wrap] throw, and the store it throws from
    is the store it was called on: no marker has been set, no member has
    been replaced and nothing was handed to the interception primitive. *)
Theorem wrap_atomic (nodules : one_or_many loc) (names : one_or_many pkey)
    (wr : wrapper) (w : World) (nodule : loc) (name : pkey) :
  nodule ∈ concat_arg nodules ->
  name ∈ concat_arg names ->
  is_function w (get_prop w nodule name) = false ->
  exists e, wrap nodules names wr w = Exn e w.
Proof.
  intros Hn Hk Hf. unfold wrap, bind.
  destruct (validate_frame (concat_arg nodules) (concat_arg names) w) as [E|[e E]].
  - pose proof (validate_sound _ _ _ E nodule name Hn Hk). congruence.
  - rewrite E. eauto.
Qed.

(** The atomic-wrap scenario of the specification: targets [A, B], members
    [f, g], and [B.g] does not exist. *)
Lemma wrap_atomic_witness :
  exists e, wrap (Many [0; 3]) (Many [KStr "f"; KStr "g"]) (Factory 1) two_targets
            = Exn e two_targets.
Proof.
  apply (wrap_atomic (Many [0; 3]) (Many [KStr "f"; KStr "g"]) (Factory 1)
           two_targets 3 (KStr "g")).
  - vm_compute. set_solver.
  - vm_compute. set_solver.
  - reflexivity.
Defined.

(** C10. On a value that is not a function [wrapExport] returns that very
    value and leaves the store as it was: no shim is allocated and no
    [_datadog_wrapper] is stored. *)
Theorem wrapExport_not_function (moduleExports wrapper : value) (w : World) :
  is_function w moduleExports = false ->
  wrapExport moduleExports wrapper w = Ret moduleExports w.
Proof.
  intros Hf. unfold wrapExport, bind, get. by rewrite Hf.
Qed.

Lemma wrapExport_not_function_witness :
  wrapExport (VRef 0) (VRef 1) two_targets = Ret (VRef 0) two_targets.
Proof.
  apply (wrapExport_not_function (VRef 0) (VRef 1) two_targets). reflexivity.
Defined.

(** ** The configuration resolver *)

Lemma clamp_NaN (x : number) :
  Number_isNaN (Math_min (Math_max x (Finite 0)) (Finite 1)) = Number_isNaN x.
Proof.
  destruct x as [| | |q]; cbn; try done.
  destruct (Qle_bool q 0); cbn; [done|]. by destruct (Qle_bool q 1).
Qed.

Lemma clamp_range (x : number) :
  Number_isNaN x = false ->
  exists r, Math_min (Math_max x (Finite 0)) (Finite 1) = Finite r /\
            (0 <= r <= 1)%Q /\ clamped x r.
Proof.
  destruct x as [| | |q]; cbn; [done| | |]; intros _.
  - exists 0%Q. split; [done|]. split; [|done]. split; [apply Qle_refl|discriminate].
  - exists 1%Q. split; [done|]. split; [|done]. split; [discriminate|apply Qle_refl].
  - destruct (Qle_bool q 0) eqn:E0; cbn.
    + apply Qle_bool_iff in E0.
      exists 0%Q. split; [done|]. split; [split; [apply Qle_refl|discriminate]|].
      destruct (Qlt_le_dec q 0) as [Hlt|Hge]; [by left|].
      right; left. split; [split|].
      * done.
      * eapply Qle_trans; [exact E0|discriminate].
      * by apply Qle_antisym.
    + assert (H0 : (0 < q)%Q).
      { apply Qnot_le_lt. intros Hle. apply Qle_bool_iff in Hle. congruence. }
      destruct (Qle_bool q 1) eqn:E1.
      * apply Qle_bool_iff in E1. exists q. split; [done|].
        split; [split; [by apply Qlt_le_weak|done]|].
        right; left. split; [split|]; [by apply Qlt_le_weak|done|reflexivity].
      * assert (H1 : (1 < q)%Q).
        { apply Qnot_le_lt. intros Hle. apply Qle_bool_iff in Hle. congruence. }
        exists 1%Q. split; [done|].
        split; [split; [discriminate|apply Qle_refl]|]. right; right. done.
Qed.

(** C9. For an integration name, the [analytics] field of the resolved
    configuration follows the precedence, first match first: an
    [ANALYTICS_ENABLED] that [isFalse] accepts gives [false]; otherwise a
    sample rate that is a number gives that rate clamped to the interval
    from 0 to 1; otherwise an [ANALYTICS_ENABLED] that [isTrue] accepts
    gives [true]; otherwise the field is left as it was (unset, when the
    caller had not set it). *)
Theorem getConfig_analytics_precedence {P : Platform}
    (name : string) (config : option Config) :
  name <> EmptyString ->
  let analyticsEnabled := cleanEnv (name +:+ "_ANALYTICS_ENABLED") in
  let rate := ToNumber (cleanEnv (name +:+ "_ANALYTICS_SAMPLE_RATE")) in
  let resolved := analytics (getConfig name config) in
  (isFalse analyticsEnabled = true -> resolved = Some (ABool false)) /\
  (isFalse analyticsEnabled = false -> Number_isNaN rate = false ->
     exists r, resolved = Some (ANum (Finite r)) /\ (0 <= r <= 1)%Q /\ clamped rate r) /\
  (isFalse analyticsEnabled = false -> Number_isNaN rate = true ->
     isTrue analyticsEnabled = true -> resolved = Some (ABool true)) /\
  (isFalse analyticsEnabled = false -> Number_isNaN rate = true ->
     isTrue analyticsEnabled = false ->
     resolved = analytics (default empty_config config)).
Proof.
  intros Hname analyticsEnabled rate resolved.
  subst resolved. unfold getConfig. rewrite bool_decide_eq_false_2 by done.
  fold analyticsEnabled. fold rate. rewrite clamp_NaN.
  repeat split.
  - intros ->. done.
  - intros -> HN. rewrite HN. cbn.
    destruct (clamp_range rate HN) as (r & -> & Hr & Hc). eauto.
  - intros -> -> ->. done.
  - intros -> -> ->. cbn. by destruct (cleanEnv (name +:+ "_ENABLED")).
Qed.

(** The scenario of the specification in which [ANALYTICS_ENABLED=false]
    and [ANALYTICS_SAMPLE_RATE=0.5] are both set. *)
Lemma getConfig_analytics_precedence_witness :
  analytics (getConfig (P := demo_platform) "bar" None) = Some (ABool false).
Proof.
  destruct (getConfig_analytics_precedence (P := demo_platform) "bar" None)
    as [Hfalse _].
  - discriminate.
  - apply Hfalse. reflexivity.
Defined.

Example getConfig_sample_rate_only :
  analytics (getConfig (P := demo_platform) "baz" None) = Some (ANum (Finite (3 # 10))).
Proof. reflexivity. Qed.

Example getConfig_enabled_only :
  analytics (getConfig (P := demo_platform) "qux" None) = Some (ABool true).
Proof. reflexivity. Qed.

Example getConfig_nothing_set :
  analytics (getConfig (P := demo_platform) "foo" None) = None.
Proof. reflexivity. Qed.

Example cleanEnv_key :
  map_string clean_char ("DD_TRACE_" +:+ toUpperCase "mongodb-core_ENABLED")
  = "DD_TRACE_MONGODB_CORE_ENABLED".
Proof. reflexivity. Qed.

(** ** The orchestrator *)

Lemma count_snoc (ev ev' : event) (t : list event) :
  length (filter (fun x => x = ev) (t ++ [ev'])) =
  (length (filter (fun x => x = ev) t) + if decide (ev' = ev) then 1 else 0)%nat.
Proof.
  rewrite filter_app, length_app. f_equal.
  destruct (decide (ev' = ev)) as [->|Hne].
  - by rewrite filter_cons_True.
  - by rewrite filter_cons_False.
Qed.

Section Orchestrator.
Context {I : Integrations}.

(** A first [patch] of a pair records it, dispatches to the capability
    once and leaves whatever the capability returns or throws. *)
Lemma patch_fresh (i : Instr) (moduleExports : value) (config : Config) (s : State) :
  is_instrumented s (Some i) moduleExports = false ->
  exists m,
    map_get m (Some i) = Some (set_add (default [] (map_get (_instrumented s) (Some i)))
                                       moduleExports) /\
    (forall j, j <> Some i -> map_get m j = map_get (_instrumented s) j) /\
    patch (Some i) moduleExports config s =
    in_world (integration_patch i moduleExports config)
      {| _enabled := _enabled s; _plugins := _plugins s; _instrumented := m;
         _disabledPlugins := _disabledPlugins s; world := world s;
         trace := trace s ++ [CallPatch i moduleExports] |}.
Proof.
  unfold is_instrumented, patch, bind, get. intros Hnot.
  destruct (map_get (_instrumented s) (Some i)) as [set|] eqn:E; cbn.
  - rewrite Hnot. cbn.
    exists (map_set (_instrumented s) (Some i) (set_add set moduleExports)).
    split; [apply map_get_set_eq|]. split; [|done].
    intros j Hj. by apply map_get_set_ne.
  - exists (map_set (map_set (_instrumented s) (Some i) []) (Some i)
                    (set_add [] moduleExports)).
    split; [apply map_get_set_eq|]. split; [|done].
    intros j Hj. by rewrite !map_get_set_ne.
Qed.

(** A [patch] of a recorded pair does nothing at all. *)
Lemma patch_again (i : option Instr) (moduleExports : value) (config : Config)
    (s : State) :
  is_instrumented s i moduleExports = true ->
  patch i moduleExports config s = Ret VUndefined s.
Proof.
  unfold is_instrumented, patch, bind, get. intros Hhas.
  destruct (map_get (_instrumented s) i) as [set|] eqn:E; [|done].
  cbn. by rewrite Hhas.
Qed.

Lemma in_world_fields {A} (m : M World A) (s : State) :
  let s' := state_of (in_world m s) in
  _enabled s' = _enabled s /\ _plugins s' = _plugins s /\
  _instrumented s' = _instrumented s /\ _disabledPlugins s' = _disabledPlugins s /\
  trace s' = trace s /\ world s' = state_of (m (world s)).
Proof. unfold in_world. by destruct (m (world s)). Qed.

Lemma patch_fresh_facts (i : Instr) (moduleExports : value) (config : Config)
    (s : State) :
  is_instrumented s (Some i) moduleExports = false ->
  let s1 := state_of (patch (Some i) moduleExports config s) in
  patch_calls i moduleExports s1 = S (patch_calls i moduleExports s) /\
  world s1 = state_of (integration_patch i moduleExports config (world s)) /\
  is_instrumented s1 (Some i) moduleExports = true.
Proof.
  intros Hnot s1.
  destruct (patch_fresh i moduleExports config s Hnot) as (m & Hm & _ & Hp).
  subst s1. rewrite Hp.
  match goal with |- context [in_world ?c ?s0] =>
    destruct (in_world_fields c s0) as (_ & _ & Hi & _ & Ht & Hw);
    cbn [trace world _instrumented] in Hi, Ht, Hw;
    set (s1 := state_of (in_world c s0)) in *
  end.
  split; [|split; [done|]].
  - unfold patch_calls. rewrite Ht, count_snoc, decide_True by done. lia.
  - unfold is_instrumented. rewrite Hi, Hm. apply set_has_add.
Qed.

Lemma same_registry_refl s : same_registry s s.
Proof. by repeat split. Qed.

Lemma same_registry_trans s1 s2 s3 :
  same_registry s1 s2 -> same_registry s2 s3 -> same_registry s1 s3.
Proof.
  intros (?&?&?&?) (?&?&?&?). repeat split; congruence.
Qed.

Lemma for_each_total {S A} (R : S -> S -> Prop) (l : list A) (body : A -> M S unit) :
  (forall s, R s s) ->
  (forall s1 s2 s3, R s1 s2 -> R s2 s3 -> R s1 s3) ->
  (forall x s, x ∈ l -> exists s', body x s = Ret tt s' /\ R s s') ->
  forall s, exists s', for_each l body s = Ret tt s' /\ R s s'.
Proof.
  intros Hrefl Htrans. induction l as [|x xs IH]; intros Hb s.
  - exists s. by split.
  - cbn [for_each]. unfold bind.
    destruct (Hb x s) as (s1 & E1 & R1); [by left|]. rewrite E1.
    destruct (IH (fun y t Hy => Hb y t (list_elem_of_further _ _ _ Hy)) s1)
      as (s2 & E2 & R2).
    exists s2. split; [done|]. by eapply Htrans.
Qed.

Lemma log_registry ev s : exists s', log ev s = Ret tt s' /\ same_registry s s'.
Proof. eexists. split; [reflexivity|]. by repeat split. Qed.

(** [unpatch] never throws, and touches neither the registry nor the
    instrumented sets. *)
Lemma unpatch_frame (instrumentation : option Instr) (s : State) :
  exists s', unpatch instrumentation s = Ret tt s' /\ same_registry s s'.
Proof.
  unfold unpatch, bind, get.
  destruct (map_get (_instrumented s) instrumentation) as [set|];
    [|exists s; split; [done|apply same_registry_refl]].
  apply for_each_total;
    [apply same_registry_refl|apply same_registry_trans|].
  intros moduleExports t _. unfold try_catch.
  destruct instrumentation as [i|].
  - unfold bind. cbn [log modify].
    match goal with |- context [in_world ?c ?s0] =>
      pose proof (in_world_fields c s0) as (He & Hp & Hi & Hd & _ & _);
      destruct (in_world c s0) as [[] s1|e s1]
    end; cbn [state_of] in *.
    + exists s1. split; [done|]. by repeat split.
    + eexists. split; [reflexivity|]. by repeat split.
  - eexists. split; [reflexivity|]. by repeat split.
Qed.

Lemma map_get_deletes {V} (m : jsmap (option Instr) V) (l : list (option Instr)) j :
  map_get (foldl map_delete m l) j = if decide (j ∈ l) then None else map_get m j.
Proof.
  revert m. induction l as [|i l IH]; intros m; cbn [foldl].
  - rewrite decide_False; [done|]. apply not_elem_of_nil.
  - rewrite IH. destruct (decide (j ∈ l)) as [Hin|Hnin].
    + rewrite decide_True; [done|]. by right.
    + destruct (decide (i = j)) as [->|Hne].
      * rewrite decide_True by left. apply map_get_delete_eq.
      * rewrite decide_False by (intros [?|?]%elem_of_cons; congruence).
        by apply map_get_delete_ne.
Qed.

Lemma unload_loop (l : list (option Instr)) (s : State) :
  exists s',
    for_each l (fun instrumentation =>
      unpatch instrumentation >>
      modify (fun s => set_instrumented
                         (map_delete (_instrumented s) instrumentation) s)) s
    = Ret tt s' /\
    _enabled s' = _enabled s /\ _plugins s' = _plugins s /\
    _disabledPlugins s' = _disabledPlugins s /\
    _instrumented s' = foldl map_delete (_instrumented s) l.
Proof.
  revert s. induction l as [|i l IH]; intros s.
  - exists s. by repeat split.
  - cbn [for_each]. unfold bind at 1 2.
    destruct (unpatch_frame i s) as (s1 & -> & He & Hp & Hi & Hd).
    cbn [modify].
    destruct (IH (set_instrumented (map_delete (_instrumented s1) i) s1))
      as (s2 & -> & He2 & Hp2 & Hd2 & Hi2).
    exists s2. cbn in *. split; [done|]. rewrite He2, Hp2, Hd2, Hi2.
    repeat split; congruence.
Qed.

(** [unload] never throws; it removes the registration of the plugin
    and the instrumented set of each of its instrumentations, and
    leaves the other entries alone. *)
Lemma unload_spec (plugin : plugin) (s : State) :
  exists s',
    unload plugin s = Ret tt s' /\
    _enabled s' = _enabled s /\ _disabledPlugins s' = _disabledPlugins s /\
    (forall q, map_get (_plugins s') q
               = if decide (q = plugin) then None else map_get (_plugins s) q) /\
    (forall j, map_get (_instrumented s') j
               = if decide (j ∈ concat_plugin plugin) then None
                 else map_get (_instrumented s) j).
Proof.
  unfold unload. unfold bind at 1.
  destruct (unload_loop (concat_plugin plugin) s) as (s1 & -> & He & Hp & Hd & Hi).
  unfold bind, get.
  destruct (map_get (_plugins s1) plugin) as [meta|] eqn:E; cbn.
  - eexists. split; [reflexivity|]. cbn. repeat split; [done..| |].
    + intros q. destruct (decide (q = plugin)) as [->|Hne].
      * apply map_get_delete_eq.
      * rewrite map_get_delete_ne by done. by rewrite Hp.
    + intros j. rewrite Hi. apply map_get_deletes.
  - exists s1. repeat split; [done..| |].
    + intros q. destruct (decide (q = plugin)) as [->|Hne]; [done|by rewrite Hp].
    + intros j. rewrite Hi. apply map_get_deletes.
Qed.
End Orchestrator.

(** C2. Two calls of [patch] in a row on a pair that is not yet
    instrumented invoke the [patch] capability of the integration exactly
    once: the first call dispatches to it once, and the store it leaves is
    the one the capability leaves; the second call returns at once and
    changes nothing. *)
Theorem patch_at_most_once {I : Integrations} (i : Instr) (moduleExports : value)
    (config config' : Config) (s : State) :
  is_instrumented s (Some i) moduleExports = false ->
  let s1 := state_of (patch (Some i) moduleExports config s) in
  let r2 := patch (Some i) moduleExports config' s1 in
  patch_calls i moduleExports s1 = S (patch_calls i moduleExports s) /\
  world s1 = state_of (integration_patch i moduleExports config (world s)) /\
  r2 = Ret VUndefined s1 /\
  patch_calls i moduleExports (state_of r2) = S (patch_calls i moduleExports s).
Proof.
  intros Hnot s1 r2.
  destruct (patch_fresh_facts i moduleExports config s Hnot) as (Hcount & Hw & Hin).
  fold s1 in Hcount, Hw, Hin.
  assert (Hagain : r2 = Ret VUndefined s1) by by apply patch_again.
  by rewrite Hagain.
Qed.

(** The first two loads of the component at 0 by instrumentation 1. *)
Lemma patch_at_most_once_witness :
  patch_calls 1 (VRef 0)
    (state_of (patch (I := demo_integrations) (Some 1) (VRef 0) empty_config
       (state_of (patch (I := demo_integrations) (Some 1) (VRef 0) empty_config
          fresh_instrumenter)))) = 1%nat.
Proof.
  destruct (patch_at_most_once (I := demo_integrations) 1 (VRef 0)
              empty_config empty_config fresh_instrumenter)
    as (_ & _ & _ & Hcount).
  - reflexivity.
  - exact Hcount.
Defined.

(** C5, as the specification has it, fails: [unpatch] calls the
    [unpatch] capability and keeps the instrumented set, so the next
    [patch] of the pair is skipped. *)
Lemma unpatch_keeps_instrumented_set :
  ~ unpatch_forgets (I := demo_integrations) 1 (VRef 0) empty_config patched_once.
Proof.
  intros [Hgone _]. vm_compute in Hgone. discriminate Hgone.
Qed.

(** C5, amended. [unpatch] never throws and leaves the instrumented sets
    as they are, so that a [patch] of a recorded pair stays a no-op; it is
    [unload] that removes the instrumented set of each instrumentation of
    the plugin, and after it a [patch] of the pair invokes the capability
    again. *)
Theorem unload_forgets_unpatch_keeps {I : Integrations} (plugin : plugin) (i : Instr)
    (moduleExports : value) (config : Config) (s : State) :
  Some i ∈ concat_plugin plugin ->
  let s1 := state_of (unpatch (Some i) s) in
  let s2 := state_of (unload plugin s) in
  (unpatch (Some i) s = Ret tt s1 /\ _instrumented s1 = _instrumented s /\
   (is_instrumented s (Some i) moduleExports = true ->
    patch (Some i) moduleExports config s1 = Ret VUndefined s1)) /\
  (unload plugin s = Ret tt s2 /\
   map_get (_instrumented s2) (Some i) = None /\
   patch_calls i moduleExports (state_of (patch (Some i) moduleExports config s2))
   = S (patch_calls i moduleExports s2)).
Proof.
  intros Hin s1 s2. split.
  - destruct (unpatch_frame (Some i) s) as (s' & E & _ & _ & Hi & _).
    subst s1. rewrite E. cbn [state_of]. split; [done|]. split; [done|].
    intros Hhas. apply patch_again. unfold is_instrumented in *. by rewrite Hi.
  - destruct (unload_spec plugin s) as (s' & E & _ & _ & _ & Hi).
    subst s2. rewrite E. cbn [state_of]. split; [done|].
    assert (Hnone : map_get (_instrumented s') (Some i) = None).
    { rewrite Hi. by rewrite decide_True. }
    split; [done|].
    apply patch_fresh_facts. unfold is_instrumented. by rewrite Hnone.
Qed.

Lemma unload_forgets_unpatch_keeps_witness :
  patch_calls 1 (VRef 0)
    (state_of (patch (I := demo_integrations) (Some 1) (VRef 0) empty_config
       (state_of (unload (I := demo_integrations) (PInstr 1) patched_once))))
  = 2%nat.
Proof.
  destruct (unload_forgets_unpatch_keeps (I := demo_integrations) (PInstr 1) 1
              (VRef 0) empty_config patched_once) as (_ & _ & _ & Hcount).
  - vm_compute. set_solver.
  - exact Hcount.
Defined.

Example repatch_after_unpatch_skipped :
  patch_calls 1 (VRef 0)
    (state_of (patch (I := demo_integrations) (Some 1) (VRef 0) empty_config
       (state_of (unpatch (I := demo_integrations) (Some 1) patched_once))))
  = 1%nat.
Proof. reflexivity. Qed.

Section Load.
Context {I : Integrations} {P : Platform}.

Lemma load_disabled plugin meta s :
  _enabled s = false -> load plugin meta s = Ret tt s.
Proof. intros He. unfold load, bind, get. by rewrite He. Qed.

(** With the engine enabled, [load] is its step when the step
    completes, and the handler run from where the step threw when it
    throws. *)
Lemma load_completes plugin meta s s' :
  _enabled s = true ->
  load_step plugin meta s = Ret tt s' ->
  load plugin meta s = Ret tt s'.
Proof.
  intros He Hs. unfold load, bind at 1, get. rewrite He. cbn [negb].
  unfold load_step, bind, log, modify in Hs. unfold bind, log, modify, try_catch.
  by rewrite Hs.
Qed.

Lemma load_catches plugin meta s e s_t :
  _enabled s = true ->
  load_step plugin meta s = Exn e s_t ->
  load plugin meta s =
  (log (LogError e) >>
   unload plugin >>
   log (LogDebug ("Error while trying to patch " +:+ name meta
                  +:+ ". The plugin has been disabled.")) >>
   log (MetricIncrement "datadog.tracer.node.plugin.errors")) s_t.
Proof.
  intros He Hs. unfold load, bind at 1, get. rewrite He. cbn [negb].
  unfold load_step, bind at 1, log at 1, modify in Hs.
  unfold bind at 1, log at 1, modify, try_catch.
  by rewrite Hs.
Qed.

Lemma load_total plugin meta s : exists s', load plugin meta s = Ret tt s'.
Proof.
  destruct (_enabled s) eqn:He; [|exists s; by apply load_disabled].
  destruct (load_step plugin meta s) as [[] s'|e s_t] eqn:Hs.
  - exists s'. by apply load_completes.
  - rewrite (load_catches _ _ _ _ _ He Hs).
    unfold bind at 1. cbn [log modify]. unfold bind at 1.
    match goal with |- context [unload plugin ?s0] =>
      destruct (unload_spec plugin s0) as (s1 & -> & _) end.
    eexists. reflexivity.
Qed.
End Load.

(** C1. [load] never throws.  When the load step of a plugin throws, the
    error is caught and the whole plugin is unloaded: [load] returns
    normally to a state without the registration of the plugin and
    without an instrumented set for any of its instrumentations, in which
    the engine is as enabled as the loader left it and the registrations
    and instrumented sets of the other plugins are those the loader left;
    so a later [load] of another plugin whose step completes is that
    step. *)
Theorem load_failure_isolation {I : Integrations} {P : Platform}
    (plugin : plugin) (meta : Meta) (s : State) (e : error) (s_t : State) :
  _enabled s = true ->
  load_step plugin meta s = Exn e s_t ->
  (forall plugin' meta' s0, exists s', load plugin' meta' s0 = Ret tt s') /\
  exists s',
    load plugin meta s = Ret tt s' /\
    map_get (_plugins s') plugin = None /\
    (forall i, i ∈ concat_plugin plugin -> map_get (_instrumented s') i = None) /\
    _enabled s' = _enabled s_t /\
    (forall other, other <> plugin ->
       map_get (_plugins s') other = map_get (_plugins s_t) other) /\
    (forall j, j ∉ concat_plugin plugin ->
       map_get (_instrumented s') j = map_get (_instrumented s_t) j) /\
    (forall other meta' s'',
       _enabled s' = true -> load_step other meta' s' = Ret tt s'' ->
       load other meta' s' = Ret tt s'').
Proof.
  intros He Hs. split; [apply load_total|].
  rewrite (load_catches _ _ _ _ _ He Hs).
  unfold bind at 1. cbn [log modify]. unfold bind at 1.
  match goal with |- context [unload plugin ?s0] =>
    destruct (unload_spec plugin s0) as (s1 & -> & He1 & _ & Hp1 & Hi1) end.
  cbn in He1, Hp1, Hi1.
  eexists. split; [reflexivity|].
  split; [cbn; by rewrite Hp1, decide_True|].
  split; [intros i Hi; cbn; by rewrite Hi1, decide_True|].
  split; [done|].
  split; [intros other Hne; cbn; by rewrite Hp1, decide_False|].
  split; [intros j Hj; cbn; by rewrite Hi1, decide_False|].
  intros other meta' s'' He' Hs'. by apply load_completes.
Qed.

(** The plugin [bar], whose [patch] throws when the loader patches the
    component at 0. *)
Lemma load_failure_isolation_witness :
  exists s',
    load (I := demo_integrations) (P := demo_platform) (PInstr 2) bar_meta
         enabled_instrumenter = Ret tt s' /\
    map_get (_plugins s') (PInstr 2) = None /\
    map_get (_instrumented s') (Some 2) = None.
Proof.
  destruct (load_failure_isolation (I := demo_integrations) (P := demo_platform)
              (PInstr 2) bar_meta enabled_instrumenter (Thrown 2)
              (state_of (load_step (P := demo_platform)
                           (PInstr 2) bar_meta enabled_instrumenter)))
    as (_ & s' & Hload & Hplugin & Hinstr & _).
  - reflexivity.
  - reflexivity.
  - exists s'. split; [exact Hload|]. split; [exact Hplugin|].
    apply Hinstr. vm_compute. set_solver.
Defined.

(** With the very name of a disabled entry, [_set] only logs. *)
Lemma set_refuses_disabled {I : Integrations} {P : Platform}
    (plugin : plugin) (meta : Meta) (s : State) :
  set_has (_disabledPlugins s) (name meta) = true ->
  exists s', _set plugin meta s = Ret tt s' /\ same_registry s s' /\ world s' = world s.
Proof.
  intros Hd. unfold _set. rewrite bind_get, Hd.
  eexists. split; [reflexivity|]. by repeat split.
Qed.

(** C6. The precedence of the disabled set is lost when [use] is given
    the name in another case: with [foo] disabled, [enable()] leaves the
    catalog entry [foo] unregistered, and so does [use('foo')], but
    [use('Foo')] registers that entry, loads it, and its [patch] capability
    is invoked on the loaded component. *)
Theorem use_other_case_registers_disabled :
  let config := UseObject {| enabled := Some true; analytics := None |} in
  let exact := state_of (use (I := demo_integrations) (P := demo_platform)
                           "foo" config after_enable) in
  let other := state_of (use (I := demo_integrations) (P := demo_platform)
                           "Foo" config after_enable) in
  set_has (_disabledPlugins after_enable) "foo" = true /\
  catalog (P := demo_platform) (toLowerCase "Foo") = PInstr 1 /\
  map_has (_plugins after_enable) (PInstr 1) = false /\
  map_has (_plugins exact) (PInstr 1) = false /\
  patch_calls 1 (VRef 0) exact = 0%nat /\
  map_get (_plugins other) (PInstr 1)
  = Some {| name := "Foo"; config := {| enabled := Some true; analytics := None |} |} /\
  patch_calls 1 (VRef 0) other = 1%nat.
Proof. vm_compute. by repeat split. Qed.

(** C8. On a name without a catalog entry, and before the engine is
    enabled, [use] returns normally but has registered the name under the
    key [undefined]: the registry is not what it was. *)
Theorem use_unknown_name_registers_undefined :
  map_get (plugins (Platform := demo_platform)) "nope" = None /\
  _plugins fresh_instrumenter = [] /\
  exists s',
    use (I := demo_integrations) (P := demo_platform) "nope" UseUndefined
        fresh_instrumenter = Ret tt s' /\
    _plugins s' = [(PUndefined, {| name := "nope"; config := empty_config |})].
Proof.
  split; [reflexivity|]. split; [reflexivity|].
  eexists. split; reflexivity.
Qed.

(** C4. A batch that passes validation is not processed to its end when
    one of its members carries the indirection: with [A.f] staged by
    [prepatch], [wrap([A], [f, g], factory)] updates the indirection of
    [A.f] and returns; [A.g] is still the function it was, carries no
    marker and was never handed to the interception primitive. *)
Theorem wrap_returns_after_indirection :
  let names := Many [KStr "f"; KStr "g"] in
  validate [0] (concat_arg names) prepatched_f = Ret tt prepatched_f /\
  exists w',
    wrap (One 0) names (Factory 7) prepatched_f = Ret tt w' /\
    get_prop w' 0 (KStr "g") = VRef 2 /\
    objs w' !! 2 = Some (function_object (Native 2)) /\
    has_own w' 2 _datadog_patched = false /\
    shimmer_calls w' 0 (KStr "g") = 0%nat.
Proof.
  split; [reflexivity|].
  eexists. split; [reflexivity|]. by vm_compute.
Qed.

(** The same batch with [A.f] not staged: both members are wrapped. *)
Example wrap_whole_batch :
  exists w',
    wrap (One 0) (Many [KStr "f"; KStr "g"]) (Factory 7) two_targets = Ret tt w' /\
    code_at w' 6 = Some (Layer 7 (VRef 2) (VStr "g")) /\
    get_prop w' 0 (KStr "g") = VRef 6 /\
    shimmer_calls w' 0 (KStr "g") = 1%nat.
Proof. eexists. split; [reflexivity|]. by vm_compute. Qed.

(** Two factories of integrations on one member: both layers are there,
    the second around the first. *)
Example two_factories_both_layers :
  let w2 := state_of ((wrap (One 0) (One (KStr "f")) (Factory 1) >>
                       wrap (One 0) (One (KStr "f")) (Factory 2)) two_targets) in
  get_prop w2 0 (KStr "f") = VRef 6 /\
  code_at w2 6 = Some (Layer 2 (VRef 5) (VStr "f")) /\
  code_at w2 5 = Some (Layer 1 (VRef 1) (VStr "f")) /\
  shimmer_calls w2 0 (KStr "f") = 2%nat.
Proof. by vm_compute. Qed.

(** C7, as the specification has it, fails: two factories of
    integrations, one after the other on the same member, go through the
    interception primitive twice. *)
Lemma two_factories_intercept_twice :
  ~ chained_wrap_once two_targets 0 (KStr "f") (Factory 1) (Factory 2).
Proof.
  intros (w1 & w2 & H1 & H2 & Hcalls).
  apply (f_equal state_of) in H1, H2. cbn [state_of] in H1, H2.
  subst w2 w1. vm_compute in Hcalls. discriminate Hcalls.
Qed.

(** ** Chained wraps *)

Section Store.
Implicit Types (w : World) (l : loc) (k : pkey) (o : object).

Lemma objs_store_eq l o w : objs (store l o w) !! l = Some o.
Proof. apply lookup_insert_eq. Qed.

Lemma objs_store_ne l l' o w : l <> l' -> objs (store l o w) !! l' = objs w !! l'.
Proof. intros Hne. by apply lookup_insert_ne. Qed.

Lemma store_store l o o' w : store l o' (store l o w) = store l o' w.
Proof. unfold store. cbn. by rewrite insert_insert_eq. Qed.

Lemma store_same l o w : objs w !! l = Some o -> store l o w = w.
Proof. intros Hl. destruct w as [h t]. unfold store. cbn in *. by rewrite insert_id. Qed.

Lemma fresh_unused w : objs w !! fresh (dom (objs w)) = None.
Proof. apply not_elem_of_dom. apply is_fresh. Qed.

Lemma get_prop_store_ne l l' o w k : l <> l' -> get_prop (store l o w) l' k = get_prop w l' k.
Proof. intros Hne. unfold get_prop, own. by rewrite objs_store_ne. Qed.

Lemma define_property_spec l k p o w :
  objs w !! l = Some o ->
  define_property (VRef l) k p w =
  Ret tt (store l {| o_call := o_call o; o_props := map_set (o_props o) k p |} w).
Proof. intros Hl. unfold define_property. by rewrite Hl. Qed.

Lemma assign_spec l k x o w :
  objs w !! l = Some o ->
  exists en,
    assign l k x w =
    Ret tt (store l {| o_call := o_call o;
                       o_props := map_set (o_props o) k
                                    {| p_value := x; p_enumerable := en |} |} w).
Proof. intros Hl. eexists. unfold assign. by apply define_property_spec. Qed.

Lemma call_wrapper_spec wr original name w :
  let p := fresh (dom (objs w)) in
  call_wrapper wr original name w =
  Ret (VRef p) (store p {| o_call := Some (wrapper_code wr original name);
                           o_props := wrapper_props wr original |} w).
Proof. by destruct wr. Qed.

(** Copying the symbol-keyed properties onto the new function changes
    neither its code nor its string-keyed properties, nor any other
    object. *)
Lemma copy_loop (props : jsmap pkey prop) p op w :
  objs w !! p = Some op ->
  exists op',
    for_each props (fun '(key, pr) =>
      match key, VRef p with
      | KSym _, VRef lw =>
          let* w' := get in
          if has_own w' lw key then ret tt else define_property (VRef p) key pr
      | KSym _, _ => define_property (VRef p) key pr
      | KStr _, _ => ret tt
      end) w = Ret tt (store p op' w) /\
    o_call op' = o_call op /\
    forall s, map_get (o_props op') (KStr s) = map_get (o_props op) (KStr s).
Proof.
  revert op w. induction props as [|[key pr] props IH]; intros op w Hp.
  - exists op. by rewrite store_same.
  - cbn [for_each]. unfold bind at 1.
    destruct key as [s|n].
    + cbn [ret]. by apply IH.
    + rewrite bind_get. destruct (has_own w p (KSym n)); [by apply IH|].
      rewrite (define_property_spec _ _ _ _ _ Hp). cbv beta iota.
      destruct (IH _ (store p {| o_call := o_call op;
                                 o_props := map_set (o_props op) (KSym n) pr |} w)
                  (objs_store_eq _ _ _)) as (op' & E & Hc & Hs).
      exists op'. rewrite E, store_store. split; [done|]. split; [done|].
      intros s. rewrite Hs. cbn. by apply map_get_set_ne.
Qed.

Lemma copy_symbols_spec original p op w :
  objs w !! p = Some op ->
  exists op',
    copy_symbols original (VRef p) w = Ret tt (store p op' w) /\
    o_call op' = o_call op /\
    forall s, map_get (o_props op') (KStr s) = map_get (o_props op) (KStr s).
Proof.
  intros Hp. unfold copy_symbols. rewrite bind_get. by apply copy_loop.
Qed.
End Store.

Section Chained.
Implicit Types (w : World) (l : loc) (k : pkey) (o : object) (wr : wrapper).

Lemma get_member_spec w l k pk :
  own w l k = Some pk -> get_member (VRef l) k w = Ret (p_value pk) w.
Proof. intros Hown. unfold get_member, get_prop. by rewrite Hown. Qed.

Lemma own_object w l k pk :
  own w l k = Some pk -> exists o, objs w !! l = Some o /\ map_get (o_props o) k = Some pk.
Proof. unfold own. destruct (objs w !! l) as [o|]; [eauto|done]. Qed.

Lemma wrap_one w w' nodule name wr f :
  is_function w (get_prop w nodule name) = true ->
  wrap_member wr nodule name w = Ret f w' ->
  wrap (One nodule) (One name) wr w = Ret tt w'.
Proof.
  intros Hf Hm.
  destruct (check_method_frame nodule name w) as [[_ E]|[Hn _]]; [|congruence].
  assert (Hv : validate [nodule] [name] w = Ret tt w).
  { unfold validate. cbn [for_each]. unfold bind. by rewrite E. }
  unfold wrap. cbn [concat_arg]. rewrite (bind_Ret _ _ _ _ _ Hv).
  cbn [for_of]. unfold bind. rewrite Hm. by destruct f.
Qed.

(** A member that is a function without the indirection goes through
    the interception primitive, once, and is replaced by what the
    wrapper builds around it. *)
Lemma wrap_intercepts w nodule name f o pk wr :
  nodule <> f ->
  own w nodule name = Some pk -> p_value pk = VRef f ->
  objs w !! f = Some o -> is_Some (o_call o) ->
  map_get (o_props o) _datadog_wrapped = None ->
  exists w1 p op pk',
    wrap (One nodule) (One name) wr w = Ret tt w1 /\
    shimmed w1 = shimmed w ++ [(nodule, name)] /\
    nodule <> p /\
    own w1 nodule name = Some pk' /\ p_value pk' = VRef p /\
    objs w1 !! p = Some op /\
    o_call op = Some (wrapper_code wr (VRef f) (key_value name)) /\
    map_get (o_props op) _datadog_wrapped
    = map_get (wrapper_props wr (VRef f)) _datadog_wrapped.
Proof.
  intros Hne Hown Hpk Hf Hcall Hnone.
  destruct (own_object _ _ _ _ Hown) as (oA & HA & HAk).
  set (wa := store f {| o_call := o_call o;
                        o_props := map_set (o_props o) _datadog_patched
                                     {| p_value := VBool true; p_enumerable := false |} |} w).
  set (wb := {| objs := objs wa; shimmed := shimmed wa ++ [(nodule, name)] |}).
  assert (Hown_a : own wa nodule name = Some pk).
  { unfold own, wa. by rewrite objs_store_ne, HA by done. }
  assert (Hown_b : own wb nodule name = Some pk) by done.
  set (p := fresh (dom (objs wb))).
  assert (Hp : objs wb !! p = None) by apply fresh_unused.
  assert (HAb : objs wb !! nodule = Some oA).
  { unfold wb, wa. cbn. by rewrite lookup_insert_ne. }
  assert (HnA : nodule <> p) by (intros Heq; rewrite Heq in HAb; congruence).
  set (wc := store p {| o_call := Some (wrapper_code wr (VRef f) (key_value name));
                        o_props := wrapper_props wr (VRef f) |} wb).
  destruct (copy_symbols_spec (VRef f) p _ wc (objs_store_eq _ _ _))
    as (op & Hcopy & Hcode & Hstr).
  assert (Hwd : store p op wc = store p op wb) by apply store_store.
  rewrite Hwd in Hcopy. clear Hwd.
  set (wd := store p op wb) in *.
  assert (HAd : objs wd !! nodule = Some oA).
  { unfold wd. by rewrite objs_store_ne. }
  destruct (assign_spec nodule name (VRef p) oA wd HAd) as (en & Hassign).
  set (we := store nodule {| o_call := o_call oA;
                             o_props := map_set (o_props oA) name
                                          {| p_value := VRef p; p_enumerable := en |} |}
                   wd) in *.
  exists we, p, op, {| p_value := VRef p; p_enumerable := en |}.
  split; [|split; [|split; [exact HnA|split; [|split; [|split; [|split]]]]]].
  - eapply wrap_one.
    + unfold get_prop. rewrite Hown, Hpk. cbn. rewrite Hf.
      by apply bool_decide_eq_true.
    + unfold wrap_member.
      rewrite (bind_Ret _ _ _ _ _ (get_member_spec _ _ _ _ Hown)), Hpk.
      rewrite (bind_Ret _ _ _ _ _ (define_property_spec _ _ _ _ _ Hf)). fold wa.
      rewrite (bind_Ret _ _ _ _ _ (get_member_spec _ _ _ _ Hown_a)), Hpk.
      rewrite bind_get.
      assert (Hhas : has_own wa f _datadog_wrapped = false).
      { unfold has_own, own, wa. rewrite objs_store_eq. cbn [o_props].
        rewrite map_get_set_ne by done. rewrite Hnone.
        apply bool_decide_eq_false. by intros [? ?]. }
      rewrite Hhas.
      assert (Hcb : wrap_callback wr (VRef f) name wb = Ret (VRef p) wd).
      { unfold wrap_callback.
        rewrite (bind_Ret _ _ _ _ _ (call_wrapper_spec wr (VRef f) (key_value name) wb)).
        fold p. fold wc. by rewrite (bind_Ret _ _ _ _ _ Hcopy). }
      assert (Hshim : shimmer_wrap nodule name (wrap_callback wr) wa = Ret tt we).
      { unfold shimmer_wrap.
        rewrite (bind_Ret _ _ wa wb tt) by reflexivity.
        rewrite (bind_Ret _ _ _ _ _ (get_member_spec _ _ _ _ Hown_b)), Hpk.
        rewrite (bind_Ret _ _ _ _ _ Hcb). exact Hassign. }
      by rewrite (bind_Ret _ _ _ _ _ Hshim).
  - reflexivity.
  - unfold own, we. rewrite objs_store_eq. cbn [o_props]. apply map_get_set_eq.
  - reflexivity.
  - unfold we. rewrite objs_store_ne by done. unfold wd. apply objs_store_eq.
  - by rewrite Hcode.
  - apply Hstr.
Qed.

(** A member that carries the indirection is not handed to the
    interception primitive: the wrapper is applied to what the
    indirection refers to, and the indirection is updated. *)
Lemma wrap_layers w nodule name p o pk pc wr :
  nodule <> p ->
  own w nodule name = Some pk -> p_value pk = VRef p ->
  objs w !! p = Some o -> is_Some (o_call o) ->
  map_get (o_props o) _datadog_wrapped = Some pc ->
  exists w2 q o2,
    wrap (One nodule) (One name) wr w = Ret tt w2 /\
    shimmed w2 = shimmed w /\
    get_prop w2 nodule name = VRef p /\
    objs w2 !! p = Some o2 /\ o_call o2 = o_call o /\
    get_prop w2 p _datadog_wrapped = VRef q /\
    code_at w2 q = Some (wrapper_code wr (p_value pc) VUndefined).
Proof.
  intros Hne Hown Hpk Hp Hcall Hsome.
  destruct (own_object _ _ _ _ Hown) as (oA & HA & HAk).
  set (oa := {| o_call := o_call o;
                o_props := map_set (o_props o) _datadog_patched
                             {| p_value := VBool true; p_enumerable := false |} |}).
  set (wa := store p oa w).
  assert (Hown_a : own wa nodule name = Some pk).
  { unfold own, wa. by rewrite objs_store_ne, HA by done. }
  assert (Hwrapped : own wa p _datadog_wrapped = Some pc).
  { unfold own, wa. rewrite objs_store_eq. cbn [oa o_props].
    by rewrite map_get_set_ne. }
  set (q := fresh (dom (objs wa))).
  assert (Hq : objs wa !! q = None) by apply fresh_unused.
  assert (Hpq : q <> p).
  { intros Heq. rewrite Heq in Hq. unfold wa in Hq.
    rewrite objs_store_eq in Hq. discriminate Hq. }
  assert (HAq : q <> nodule).
  { intros Heq. rewrite Heq in Hq. unfold wa in Hq.
    rewrite objs_store_ne, HA in Hq by done. discriminate Hq. }
  set (oq := {| o_call := Some (wrapper_code wr (p_value pc) VUndefined);
                o_props := wrapper_props wr (p_value pc) |}).
  set (wb := store q oq wa).
  assert (Hpb : objs wb !! p = Some oa).
  { unfold wb, wa. rewrite objs_store_ne by done. apply objs_store_eq. }
  destruct (assign_spec p _datadog_wrapped (VRef q) oa wb Hpb) as (en & Hassign).
  set (o2 := {| o_call := o_call oa;
                o_props := map_set (o_props oa) _datadog_wrapped
                             {| p_value := VRef q; p_enumerable := en |} |}) in *.
  set (wc := store p o2 wb) in *.
  exists wc, q, o2.
  split; [|split; [|split; [|split; [|split; [|split]]]]].
  - eapply wrap_one.
    + unfold get_prop. rewrite Hown, Hpk. cbn. rewrite Hp.
      by apply bool_decide_eq_true.
    + unfold wrap_member.
      rewrite (bind_Ret _ _ _ _ _ (get_member_spec _ _ _ _ Hown)), Hpk.
      rewrite (bind_Ret _ _ _ _ _ (define_property_spec _ _ _ _ _ Hp)).
      fold oa. fold wa.
      rewrite (bind_Ret _ _ _ _ _ (get_member_spec _ _ _ _ Hown_a)), Hpk.
      rewrite bind_get.
      assert (Hhas : has_own wa p _datadog_wrapped = true).
      { unfold has_own. rewrite Hwrapped. by apply bool_decide_eq_true. }
      rewrite Hhas.
      rewrite (bind_Ret _ _ _ _ _ (get_member_spec _ _ _ _ Hwrapped)).
      rewrite (bind_Ret _ _ _ _ _ (call_wrapper_spec wr (p_value pc) VUndefined wa)).
      fold q. fold oq. fold wb.
      by rewrite (bind_Ret _ _ _ _ _ Hassign).
  - reflexivity.
  - unfold wc, wb. rewrite !get_prop_store_ne by done.
    unfold get_prop. by rewrite Hown_a.
  - unfold wc. apply objs_store_eq.
  - reflexivity.
  - unfold get_prop, own, wc. rewrite objs_store_eq. cbn [o2 o_props].
    by rewrite map_get_set_eq.
  - unfold code_at, wc, wb. rewrite objs_store_ne by done.
    by rewrite objs_store_eq.
Qed.
End Chained.

(** C7, amended. On a member that is a function without the
    indirection, a first [wrap] with [getPrepatchWrappedFunction] and a
    second [wrap] with any wrapper both complete, and the interception
    primitive has been invoked once for the member: the member is the
    [prepatchWrapped] closure around the original, installed by the first
    wrap, and a call of it goes to the function the second wrapper built
    around the original. *)
Theorem chained_wrap_over_prepatch (w : World) (nodule : loc) (name : pkey)
    (f : loc) (o : object) (pk : prop) (second : wrapper) :
  nodule <> f ->
  own w nodule name = Some pk -> p_value pk = VRef f ->
  objs w !! f = Some o -> is_Some (o_call o) ->
  map_get (o_props o) _datadog_wrapped = None ->
  exists w1 w2 p q,
    wrap (One nodule) (One name) GetPrepatchWrappedFunction w = Ret tt w1 /\
    wrap (One nodule) (One name) second w1 = Ret tt w2 /\
    shimmer_calls w2 nodule name = S (shimmer_calls w nodule name) /\
    get_prop w2 nodule name = VRef p /\
    code_at w2 p = Some (PrepatchWrapped (VRef f)) /\
    fnToCall w2 p = Some (VRef q) /\
    code_at w2 q = Some (wrapper_code second (VRef f) VUndefined).
Proof.
  intros Hne Hown Hpk Hf Hcall Hnone.
  destruct (wrap_intercepts w nodule name f o pk GetPrepatchWrappedFunction
              Hne Hown Hpk Hf Hcall Hnone)
    as (w1 & p & op & pk' & Hw1 & Hsh1 & Hnp & Hown1 & Hpk' & Hp1 & Hcode1 & Hwr1).
  cbn in Hcode1, Hwr1.
  destruct (wrap_layers w1 nodule name p op pk' _ second Hnp Hown1 Hpk' Hp1
              ltac:(by rewrite Hcode1) Hwr1)
    as (w2 & q & o2 & Hw2 & Hsh2 & Hmem & Hp2 & Hcode2 & Hind & Hq).
  exists w1, w2, p, q.
  split; [done|]. split; [done|].
  split; [|split; [done|split; [|split; [|done]]]].
  - unfold shimmer_calls. rewrite Hsh2, Hsh1, filter_app, length_app.
    rewrite filter_cons_True by done. cbn. lia.
  - unfold code_at. by rewrite Hp2, Hcode2, Hcode1.
  - unfold fnToCall. rewrite Hp2. destruct o2 as [c2 props2]. cbn in Hcode2.
    rewrite Hcode2, Hcode1, Hind. done.
Qed.

(** The member [A.f] of the two targets, staged and then wrapped by the
    factory of an integration. *)
Lemma chained_wrap_over_prepatch_witness :
  chained_wrap_once two_targets 0 (KStr "f") GetPrepatchWrappedFunction (Factory 7).
Proof.
  destruct (chained_wrap_over_prepatch two_targets 0 (KStr "f") 1
              (function_object (Native 1)) (member (VRef 1)) (Factory 7))
    as (w1 & w2 & _ & _ & H1 & H2 & Hcalls & _).
  - lia.
  - reflexivity.
  - reflexivity.
  - reflexivity.
  - by eexists.
  - reflexivity.
  - exists w1, w2. split; [exact H1|]. split; [exact H2|exact Hcalls].
Defined.


(** * Further properties *)

(** ** The configuration resolver *)











(** X2. Resolving a configuration that is already resolved changes
    nothing: [getConfig] is idempotent in its configuration. *)
Theorem getConfig_idempotent {P : Platform} (name : string) (config : option Config) :
  getConfig name (Some (getConfig name config)) = getConfig name config.
Proof.
  unfold getConfig. cbn [default].
  destruct (bool_decide (name = EmptyString)); [done|].
  destruct (cleanEnv (name +:+ "_ENABLED")) as [e|];
    destruct (isFalse (cleanEnv (name +:+ "_ANALYTICS_ENABLED")));
    cbn; try done;
    destruct (Number_isNaN _); cbn; try done;
    destruct (isTrue (cleanEnv (name +:+ "_ANALYTICS_ENABLED"))); cbn; try done;
    by destruct (default empty_config config).
Qed.

(** ** The disabled set *)

Section SetFacts.
Context {A B : Type} `{EqDecision B}.

Lemma elem_of_set_add (s : list B) (k x : B) : x ∈ set_add s k <-> x ∈ s \/ x = k.
Proof.
  unfold set_add, set_has. destruct (bool_decide (k ∈ s)) eqn:E.
  - apply bool_decide_eq_true in E. split; [by left|]. by intros [?| ->].
  - rewrite elem_of_app, list_elem_of_singleton. done.
Qed.

Lemma NoDup_set_add (s : list B) (k : B) : NoDup s -> NoDup (set_add s k).
Proof.
  intros Hs. unfold set_add, set_has. destruct (bool_decide (k ∈ s)) eqn:E; [done|].
  apply bool_decide_eq_false in E. apply NoDup_app. split; [done|].
  split; [|apply NoDup_singleton].
  intros x Hx Hk. apply list_elem_of_singleton in Hk. by subst.
Qed.

Lemma elem_of_collect (f : A -> B) (l : list A) (acc : list B) (x : B) :
  x ∈ foldl (fun set p => set_add set (f p)) acc l <->
  x ∈ acc \/ exists p, p ∈ l /\ f p = x.
Proof.
  revert acc. induction l as [|p l IH]; intros acc; cbn [foldl].
  - split; [by left|]. intros [?|(p & Hp & _)]; [done|]. by apply elem_of_nil in Hp.
  - rewrite IH, elem_of_set_add. split.
    + intros [[?| ->]|(q & Hq & Hf)]; [by left| |].
      * right. exists p. split; [by left|done].
      * right. exists q. split; [by right|done].
    + intros [?|(q & Hq & Hf)]; [by left; left|].
      apply elem_of_cons in Hq as [->|Hq]; [by left; right|].
      right. by exists q.
Qed.

Lemma NoDup_collect (f : A -> B) (l : list A) (acc : list B) :
  NoDup acc -> NoDup (foldl (fun set p => set_add set (f p)) acc l).
Proof.
  revert acc. induction l as [|p l IH]; intros acc Hacc; cbn [foldl]; [done|].
  apply IH. by apply NoDup_set_add.
Qed.
End SetFacts.

Lemma trim_end_cons (c : ascii) (s : string) :
  trim_end (String c s) =
  match trim_end s with
  | EmptyString => if is_space c then EmptyString else String c EmptyString
  | t => String c t
  end.
Proof. reflexivity. Qed.

Lemma trim_end_idem (s : string) : trim_end (trim_end s) = trim_end s.
Proof.
  induction s as [|c s IH]; [done|].
  rewrite trim_end_cons. destruct (trim_end s) as [|d t] eqn:E.
  - destruct (is_space c) eqn:Ec; [done|]. rewrite trim_end_cons. cbn. by rewrite Ec.
  - rewrite trim_end_cons. by rewrite IH.
Qed.

Lemma trim_start_head (s : string) :
  match trim_start s with
  | EmptyString => True
  | String c _ => is_space c = false
  end.
Proof.
  induction s as [|c s IH]; [done|].
  cbn [trim_start]. destruct (is_space c) eqn:Ec; [done|]. cbn. done.
Qed.

Lemma trim_end_head (s : string) :
  match s with EmptyString => True | String c _ => is_space c = false end ->
  match trim_end s with EmptyString => True | String c _ => is_space c = false end.
Proof.
  destruct s as [|c s]; [done|]. intros Hc. cbn [trim_end].
  destruct (trim_end s); [by rewrite Hc|done].
Qed.

Lemma trim_start_fixed (s : string) :
  match s with EmptyString => True | String c _ => is_space c = false end ->
  trim_start s = s.
Proof. destruct s as [|c s]; [done|]. intros Hc. cbn. by rewrite Hc. Qed.

Lemma trim_idem (s : string) : trim (trim s) = trim s.
Proof.
  unfold trim.
  rewrite (trim_start_fixed (trim_end (trim_start s))).
  - apply trim_end_idem.
  - apply trim_end_head, trim_start_head.
Qed.

(** X3. When [DD_TRACE_DISABLED_PLUGINS] is set and not empty, the
    disabled set holds exactly the comma-separated pieces of its value,
    each trimmed: it has no duplicates, trimming a member changes nothing,
    and a name is a member if and only if some piece trims to it. *)
Theorem collectDisabledPlugins_pieces {P : Platform} (v : string) :
  env "DD_TRACE_DISABLED_PLUGINS" = Some v ->
  v <> EmptyString ->
  NoDup collectDisabledPlugins /\
  (forall name, name ∈ collectDisabledPlugins <->
                exists piece, piece ∈ split_comma v /\ trim piece = name) /\
  (forall name, name ∈ collectDisabledPlugins -> trim name = name).
Proof.
  intros Henv Hv. unfold collectDisabledPlugins. rewrite Henv.
  destruct v as [|c v]; [done|].
  assert (Hiff : forall name,
    name ∈ foldl (fun set plugin => set_add set (trim plugin)) [] (split_comma (String c v))
    <-> exists piece, piece ∈ split_comma (String c v) /\ trim piece = name).
  { intros name. rewrite elem_of_collect. split; [|by right].
    intros [Hnil|?]; [by apply elem_of_nil in Hnil|done]. }
  split; [apply NoDup_collect, NoDup_nil_2|]. split; [exact Hiff|].
  intros name (piece & _ & <-)%Hiff. apply trim_idem.
Qed.

(** A value with blanks around its pieces and a repeated name. *)
Lemma collectDisabledPlugins_pieces_witness :
  let P := {| plugins := []; env := fun _ => Some " foo , bar,foo";
              isTrue := demo_isTrue; isFalse := demo_isFalse;
              StringToNumber := demo_StringToNumber;
              loader_load := fun _ _ => ret tt; loader_reload := fun _ => ret tt;
              loader_preload := None |} in
  collectDisabledPlugins (P := P) = ["foo"; "bar"] /\
  NoDup (collectDisabledPlugins (P := P)).
Proof.
  intros P. split; [reflexivity|].
  destruct (collectDisabledPlugins_pieces (P := P) " foo , bar,foo") as (Hnodup & _).
  - reflexivity.
  - discriminate.
  - exact Hnodup.
Defined.

(** ** Best-effort cleanup *)

Lemma unpatch_calls_snoc (t : list event) (ev : event) :
  unpatch_calls (t ++ [ev]) =
  unpatch_calls t ++ match ev with
                     | CallUnpatch i moduleExports => [(i, moduleExports)]
                     | _ => []
                     end.
Proof. unfold unpatch_calls. rewrite omap_app. by destruct ev. Qed.

Section Cleanup.
Context {I : Integrations}.

Lemma unpatch_one (instrumentation : option Instr) (moduleExports : value) (s : State) :
  exists s',
    try_catch
      match instrumentation with
      | Some i =>
          log (CallUnpatch i moduleExports) >>
          in_world (integration_unpatch i moduleExports)
      | None => throw TypeError
      end
      (fun e => log (LogError e)) s = Ret tt s' /\
    same_registry s s' /\
    unpatch_calls (trace s') = unpatch_calls (trace s) ++ pairs_of instrumentation [moduleExports].
Proof.
  unfold try_catch. destruct instrumentation as [i|].
  - unfold bind. cbn [log modify].
    match goal with |- context [in_world ?c ?s0] =>
      pose proof (in_world_fields c s0) as (He & Hp & Hi & Hd & Ht & _);
      destruct (in_world c s0) as [[] s1|e s1]
    end; cbn [state_of trace _enabled _plugins _instrumented _disabledPlugins] in *.
    + exists s1. split; [done|]. split; [by repeat split|].
      by rewrite Ht, unpatch_calls_snoc.
    + eexists. split; [reflexivity|]. split; [by repeat split|].
      cbn [trace]. by rewrite Ht, !unpatch_calls_snoc, app_nil_r.
  - eexists. split; [reflexivity|]. split; [by repeat split|].
    cbn. by rewrite unpatch_calls_snoc.
Qed.

Lemma unpatch_all (instrumentation : option Instr) (instrumented : list value) (s : State) :
  exists s',
    for_each instrumented (fun moduleExports =>
      try_catch
        match instrumentation with
        | Some i =>
            log (CallUnpatch i moduleExports) >>
            in_world (integration_unpatch i moduleExports)
        | None => throw TypeError
        end
        (fun e => log (LogError e))) s = Ret tt s' /\
    same_registry s s' /\
    unpatch_calls (trace s') = unpatch_calls (trace s) ++ pairs_of instrumentation instrumented.
Proof.
  revert s. induction instrumented as [|moduleExports rest IH]; intros s.
  - exists s. split; [done|]. split; [apply same_registry_refl|].
    destruct instrumentation; cbn; by rewrite app_nil_r.
  - cbn [for_each].
    destruct (unpatch_one instrumentation moduleExports s) as (s1 & E1 & R1 & C1).
    rewrite (bind_Ret _ _ _ _ _ E1).
    destruct (IH s1) as (s2 & E2 & R2 & C2).
    exists s2. split; [done|]. split; [by eapply same_registry_trans|].
    rewrite C2, C1, <- app_assoc. f_equal. by destruct instrumentation.
Qed.

Lemma unpatch_dispatches (instrumentation : option Instr) (s : State) :
  exists s',
    unpatch instrumentation s = Ret tt s' /\
    same_registry s s' /\
    unpatch_calls (trace s') =
    unpatch_calls (trace s) ++
    pairs_of instrumentation (default [] (map_get (_instrumented s) instrumentation)).
Proof.
  unfold unpatch. rewrite bind_get.
  destruct (map_get (_instrumented s) instrumentation) as [instrumented|]; cbn [default].
  - apply unpatch_all.
  - exists s. split; [done|]. split; [apply same_registry_refl|].
    destruct instrumentation; cbn; by rewrite app_nil_r.
Qed.
End Cleanup.

(** X4. [unpatch] is a best-effort cleanup: it never throws, it changes
    neither the registry nor the instrumented sets, and it dispatches to the
    [unpatch] capability once for every recorded exports object, in the
    order they were recorded, whether or not an earlier dispatch threw.
    Without an instrumented set nothing is dispatched. *)
Theorem unpatch_best_effort {I : Integrations} (instrumentation : option Instr)
    (s : State) :
  exists s',
    unpatch instrumentation s = Ret tt s' /\
    same_registry s s' /\
    unpatch_calls (trace s') =
    unpatch_calls (trace s) ++
    pairs_of instrumentation (default [] (map_get (_instrumented s) instrumentation)).
Proof. apply unpatch_dispatches. Qed.

Section Disable.
Context {I : Integrations}.

Lemma unpatch_keys (keys : list (option Instr)) (s0 s : State) :
  _instrumented s = _instrumented s0 ->
  exists s',
    for_each keys unpatch s = Ret tt s' /\
    same_registry s s' /\
    unpatch_calls (trace s') =
    unpatch_calls (trace s) ++
    flat_map (fun instrumentation =>
                pairs_of instrumentation
                         (default [] (map_get (_instrumented s0) instrumentation))) keys.
Proof.
  revert s. induction keys as [|k keys IH]; intros s Hs.
  - exists s. split; [done|]. split; [apply same_registry_refl|].
    cbn. by rewrite app_nil_r.
  - cbn [for_each flat_map].
    destruct (unpatch_dispatches k s) as (s1 & E1 & R1 & C1).
    rewrite (bind_Ret _ _ _ _ _ E1).
    destruct (IH s1) as (s2 & E2 & R2 & C2).
    { destruct R1 as (_ & _ & Hi & _). congruence. }
    exists s2. split; [done|]. split; [by eapply same_registry_trans|].
    by rewrite C2, C1, Hs, <- app_assoc.
Qed.
End Disable.

(** X5. [disable] dispatches to the [unpatch] capability once for every
    instrumented pair, in the order of the instrumented sets, and then
    hands the loader an empty registry for its reload, with the engine
    marked disabled. *)
Theorem disable_unpatches_all {I : Integrations} {P : Platform} (s : State) :
  exists s1,
    disable s = loader_reload [] s1 /\
    _enabled s1 = false /\
    _plugins s1 = [] /\
    _disabledPlugins s1 = _disabledPlugins s /\
    unpatch_calls (trace s1) = unpatch_calls (trace s) ++ instrumented_pairs s.
Proof.
  unfold disable. rewrite bind_get.
  destruct (unpatch_keys (map_keys (_instrumented s)) s s eq_refl)
    as (s' & E & (He & Hp & Hi & Hd) & Hc).
  rewrite (bind_Ret _ _ _ _ _ E).
  eexists. split; [reflexivity|]. cbn. by repeat split.
Qed.


(** ** Registration *)



(** ** The registry and the disabled set *)

Lemma respects_fields (s s' : State) :
  _plugins s' = _plugins s -> _disabledPlugins s' = _disabledPlugins s ->
  respects_disabled s -> respects_disabled s'.
Proof. unfold respects_disabled. by intros -> ->. Qed.

Lemma Forall_map_set {K V} `{EqDecision K} (Q : K * V -> Prop) (m : jsmap K V) k v :
  Forall Q m -> Q (k, v) -> Forall Q (map_set m k v).
Proof.
  intros Hm Hkv. induction m as [|[k' v'] m IH]; cbn.
  - by constructor.
  - apply Forall_cons in Hm as [H1 H2].
    destruct (decide (k' = k)); constructor; auto.
Qed.

Lemma Forall_map_delete {K V} `{EqDecision K} (Q : K * V -> Prop) (m : jsmap K V) k :
  Forall Q m -> Forall Q (map_delete m k).
Proof.
  intros Hm. induction m as [|[k' v'] m IH]; cbn; [done|].
  apply Forall_cons in Hm as [H1 H2].
  destruct (decide (k' = k)); [auto|constructor; auto].
Qed.

Lemma keeps_ret {A} (a : A) : keeps_disabled (ret a).
Proof. by intros s Hs. Qed.

Lemma keeps_throw {A} (e : error) : keeps_disabled (throw (A := A) e).
Proof. by intros s Hs. Qed.

Lemma keeps_bind {A B} (m : M State A) (k : A -> M State B) :
  keeps_disabled m -> (forall a, keeps_disabled (k a)) -> keeps_disabled (bind m k).
Proof.
  intros Hm Hk s Hs. unfold bind. specialize (Hm s Hs).
  destruct (m s) as [a s'|e s']; [by apply Hk|done].
Qed.

Lemma keeps_bind_get {B} (k : State -> M State B) :
  (forall s, respects_disabled s -> respects_disabled (state_of (k s s))) ->
  keeps_disabled (bind get k).
Proof. intros Hk s Hs. rewrite bind_get. by apply Hk. Qed.

Lemma keeps_try_catch {A} (m : M State A) (h : error -> M State A) :
  keeps_disabled m -> (forall e, keeps_disabled (h e)) -> keeps_disabled (try_catch m h).
Proof.
  intros Hm Hh s Hs. unfold try_catch. specialize (Hm s Hs).
  destruct (m s) as [a s'|e s']; [done|by apply Hh].
Qed.

Lemma keeps_for_each {A} (l : list A) (body : A -> M State unit) :
  (forall x, keeps_disabled (body x)) -> keeps_disabled (for_each l body).
Proof.
  intros Hb. induction l as [|x xs IH]; cbn [for_each]; [apply keeps_ret|].
  apply keeps_bind; [apply Hb|by intros _].
Qed.

Lemma keeps_modify (f : State -> State) :
  (forall s, respects_disabled s -> respects_disabled (f s)) -> keeps_disabled (modify f).
Proof. intros Hf s Hs. by apply Hf. Qed.

Lemma keeps_log (ev : event) : keeps_disabled (log ev).
Proof. apply keeps_modify. intros s. by apply respects_fields. Qed.

Lemma keeps_in_world {A} (m : M World A) : keeps_disabled (in_world m).
Proof.
  intros s. destruct (in_world_fields m s) as (_ & Hp & _ & Hd & _).
  by apply respects_fields.
Qed.

Section Invariant.
Context {I : Integrations} {P : Platform}.

Lemma keeps_patch instrumentation moduleExports config :
  keeps_disabled (patch instrumentation moduleExports config).
Proof.
  unfold patch. apply keeps_bind_get. intros s Hs.
  apply keeps_bind; [|intros instrumented|done].
  - destruct (map_get (_instrumented s) instrumentation); [apply keeps_ret|].
    apply keeps_bind; [|intros _; apply keeps_ret].
    apply keeps_modify. intros t. by apply respects_fields.
  - destruct (set_has instrumented moduleExports); [apply keeps_ret|].
    apply keeps_bind; [apply keeps_modify; intros t; by apply respects_fields|].
    intros _. destruct instrumentation; [|apply keeps_throw].
    apply keeps_bind; [apply keeps_log|intros _; apply keeps_in_world].
Qed.

Lemma keeps_unpatch instrumentation : keeps_disabled (unpatch instrumentation).
Proof.
  intros s. destruct (unpatch_frame instrumentation s) as (s' & -> & _ & Hp & _ & Hd).
  by apply respects_fields.
Qed.

Lemma keeps_unload plugin : keeps_disabled (unload plugin).
Proof.
  unfold unload. apply keeps_bind.
  - apply keeps_for_each. intros i.
    apply keeps_bind; [apply keeps_unpatch|intros _].
    apply keeps_modify. intros t. by apply respects_fields.
  - intros _. apply keeps_bind_get. intros s Hs.
    destruct (map_get (_plugins s) plugin); [|done].
    unfold respects_disabled. cbn. by apply Forall_map_delete.
Qed.

Hypothesis loader_load_keeps : forall i config, keeps_disabled (loader_load i config).
Hypothesis loader_reload_keeps : forall registry, keeps_disabled (loader_reload registry).
Hypothesis loader_preload_keeps :
  forall pre pluginsMap, loader_preload = Some pre -> keeps_disabled (pre pluginsMap).

Lemma keeps_load plugin meta : keeps_disabled (load plugin meta).
Proof using loader_load_keeps.
  unfold load. apply keeps_bind_get. intros s Hs.
  destruct (negb (_enabled s)); [done|].
  apply keeps_bind; [apply keeps_log|intros _|done].
  apply keeps_try_catch.
  - apply keeps_for_each. intros i. apply loader_load_keeps.
  - intros e. apply keeps_bind; [apply keeps_log|intros _].
    apply keeps_bind; [apply keeps_unload|intros _].
    apply keeps_bind; [apply keeps_log|intros _; apply keeps_log].
Qed.

Lemma keeps_set plugin meta : keeps_disabled (_set plugin meta).
Proof using loader_load_keeps.
  unfold _set. apply keeps_bind_get. intros s Hs.
  destruct (set_has (_disabledPlugins s) (name meta)) eqn:Hd.
  - by apply keeps_log.
  - unfold bind. cbn [modify]. apply keeps_load.
    unfold respects_disabled. cbn. by apply Forall_map_set.
Qed.

Lemma keeps_use requested config : keeps_disabled (use requested config).
Proof using loader_load_keeps loader_reload_keeps.
  unfold use. apply keeps_bind.
  - apply keeps_try_catch; [apply keeps_set|intros e; apply keeps_log].
  - intros _. apply keeps_bind_get. intros s Hs.
    destruct (_enabled s); [by apply loader_reload_keeps|done].
Qed.

Lemma keeps_enable config : keeps_disabled (enable config).
Proof using loader_load_keeps loader_reload_keeps.
  unfold enable. apply keeps_bind.
  - apply keeps_modify. intros t. by apply respects_fields.
  - intros _. apply keeps_bind.
    + destruct (negb _); [|apply keeps_ret].
      apply keeps_bind_get. intros s Hs.
      by apply keeps_for_each; [intros n; apply keeps_set|].
    + intros _. apply keeps_bind_get. intros s Hs. by apply loader_reload_keeps.
Qed.

Lemma keeps_disable : keeps_disabled disable.
Proof using loader_reload_keeps.
  unfold disable. apply keeps_bind_get. intros s Hs.
  apply keeps_bind; [apply keeps_for_each; intros i; apply keeps_unpatch| |done].
  intros _. apply keeps_bind.
  { apply keeps_modify. intros t _. unfold respects_disabled. by cbn. }
  intros _. apply keeps_bind.
  { apply keeps_modify. intros t. by apply respects_fields. }
  intros _. apply keeps_bind_get. intros t Ht. by apply loader_reload_keeps.
Qed.

Lemma respects_new w : respects_disabled (state_of (new_Instrumenter w)).
Proof using loader_preload_keeps.
  unfold new_Instrumenter, preload.
  destruct loader_preload as [pre|] eqn:E; [|by constructor].
  rewrite bind_get. apply (loader_preload_keeps pre _ eq_refl). by constructor.
Qed.
End Invariant.

(** X7. With a loader that leaves the registry clear of disabled names
    (as one that only calls [patch] does), no operation of the instrumenter
    ever registers a plugin under a name of the disabled set: a new
    instrumenter has no such registration, and [use], [enable], [disable],
    [load], [unload], [patch] and [unpatch] keep it so, whatever the
    integrations do. *)
Theorem disabled_names_stay_unregistered {I : Integrations} {P : Platform} :
  (forall i config, keeps_disabled (loader_load i config)) ->
  (forall registry, keeps_disabled (loader_reload registry)) ->
  (forall pre pluginsMap, loader_preload = Some pre -> keeps_disabled (pre pluginsMap)) ->
  (forall w, respects_disabled (state_of (new_Instrumenter w))) /\
  (forall requested config, keeps_disabled (use requested config)) /\
  (forall config, keeps_disabled (enable config)) /\
  keeps_disabled disable /\
  (forall plugin meta, keeps_disabled (load plugin meta)) /\
  (forall plugin, keeps_disabled (unload plugin)) /\
  (forall instrumentation moduleExports config,
     keeps_disabled (patch instrumentation moduleExports config)) /\
  (forall instrumentation, keeps_disabled (unpatch instrumentation)).
Proof.
  intros Hload Hreload Hpreload.
  split; [intros w; by apply respects_new|].
  split; [intros; by apply keeps_use|].
  split; [intros; by apply keeps_enable|].
  split; [by apply keeps_disable|].
  split; [intros; by apply keeps_load|].
  split; [intros; apply keeps_unload|].
  split; [intros; apply keeps_patch|intros; apply keeps_unpatch].
Qed.

(** The demo loader only calls [patch]: after [enable()] and a [use] of
    each spelling, no registration carries the disabled name. *)
Lemma disabled_names_stay_unregistered_witness :
  respects_disabled
    (state_of (use (I := demo_integrations) (P := demo_platform) "foo" UseUndefined
       (state_of (enable (I := demo_integrations) (P := demo_platform) None
          (state_of (new_Instrumenter (P := demo_platform) two_targets)))))).
Proof.
  destruct (disabled_names_stay_unregistered (I := demo_integrations)
              (P := demo_platform)) as (Hnew & Huse & Henable & _).
  - intros i config. cbn [loader_load demo_platform].
    apply keeps_bind; [apply keeps_patch|intros _; apply keeps_ret].
  - intros registry. apply keeps_ret.
  - intros pre pluginsMap Hpre. discriminate Hpre.
  - apply Huse, Henable, Hnew.
Defined.

(** ** Preload *)

Section Staging.
Context {K V A : Type} `{EqDecision K}.
Implicit Types (f : A -> K) (g : A -> V) (l : list A) (m : jsmap K V).

Lemma staged_others f g l m k :
  (forall a, a ∈ l -> f a <> k) ->
  map_get (foldl (fun m a => map_set m (f a) (g a)) m l) k = map_get m k.
Proof.
  revert m. induction l as [|x l IH]; intros m Hl; cbn [foldl]; [done|].
  rewrite IH by (intros a Ha; apply Hl; by right).
  apply map_get_set_ne. apply Hl. by left.
Qed.

Lemma staged_each f g l m a :
  a ∈ l ->
  exists a', a' ∈ l /\ f a' = f a /\
             map_get (foldl (fun m a => map_set m (f a) (g a)) m l) (f a) = Some (g a').
Proof.
  revert m a. induction l as [|x l IH]; intros m a Ha; [by apply elem_of_nil in Ha|].
  cbn [foldl].
  destruct (decide (Exists (fun b => f b = f a) l)) as [Hex|Hno].
  - apply Exists_exists in Hex as (b & Hb & Hfb).
    destruct (IH (map_set m (f x) (g x)) b Hb) as (a' & Ha' & Hfa' & Hget).
    exists a'. split; [by right|]. split; [congruence|]. by rewrite <- Hfb.
  - assert (Hax : a = x).
    { apply elem_of_cons in Ha as [?|Ha]; [done|].
      exfalso. apply Hno, Exists_exists. by exists a. }
    subst x. exists a. split; [by left|]. split; [done|].
    rewrite staged_others; [apply map_get_set_eq|].
    intros b Hb Hfb. apply Hno, Exists_exists. by exists b.
Qed.
End Staging.

(** X8. When the loader can preload, [preload] hands it one map that
    offers every catalog plugin that is not registered, under the
    environment-derived configuration of one of its catalog names, and no
    plugin that is registered; the disabled set plays no part. *)
Theorem preload_offers_unregistered {P : Platform}
    (pre : jsmap plugin Meta -> M State unit) (s : State) :
  loader_preload = Some pre ->
  exists pluginsMap,
    preload s = pre pluginsMap s /\
    (forall n, n ∈ map_keys plugins ->
       map_has (_plugins s) (catalog n) = false ->
       exists meta,
         map_get pluginsMap (catalog n) = Some meta /\
         name meta ∈ map_keys plugins /\
         catalog (name meta) = catalog n /\
         config meta = getConfig (name meta) None) /\
    (forall p, map_has (_plugins s) p = true -> map_get pluginsMap p = None).
Proof.
  intros Hpre. unfold preload. rewrite Hpre, bind_get.
  eexists. split; [reflexivity|]. split.
  - intros n Hn Hfree.
    assert (Hin : n ∈ List.filter (fun n => negb (map_has (_plugins s) (catalog n)))
                                  (map_keys plugins)).
    { apply list_elem_of_In, filter_In. split; [by apply list_elem_of_In|].
      by rewrite Hfree. }
    destruct (staged_each catalog
                (fun n => {| name := n; config := getConfig n None |}) _ [] n Hin)
      as (n' & Hn' & Hcat & Hget).
    eexists. split; [exact Hget|]. cbn.
    apply list_elem_of_In, filter_In in Hn' as [Hn' _].
    split; [by apply list_elem_of_In|done].
  - intros p Hp. rewrite staged_others; [done|].
    intros n Hn%list_elem_of_In%filter_In Hcat. destruct Hn as [_ Hn].
    rewrite Hcat, Hp in Hn. discriminate Hn.
Qed.

(** The catalog of the examples, nothing registered: the plugin [foo] is
    offered although its name is disabled. *)
Lemma preload_offers_unregistered_witness :
  exists pluginsMap meta,
    preload (P := preloading_platform) fresh_instrumenter
    = for_each pluginsMap (fun '(_, meta) => log (LogDebug ("staged " +:+ name meta)))
               fresh_instrumenter /\
    map_get pluginsMap (PInstr 1) = Some meta.
Proof.
  destruct (preload_offers_unregistered (P := preloading_platform)
              (fun pluginsMap =>
                 for_each pluginsMap (fun '(_, meta) =>
                   log (LogDebug ("staged " +:+ name meta))))
              fresh_instrumenter eq_refl)
    as (pluginsMap & Hpre & Hoffer & _).
  destruct (Hoffer "foo") as (meta & Hget & _).
  - vm_compute. set_solver.
  - reflexivity.
  - exists pluginsMap, meta. split; [exact Hpre|exact Hget].
Defined.

(** ** Staging, and the wrapper of a whole export *)

(** X9. [wrap] on one member that is a function without the
    indirection, with any wrapper: the member is replaced by the function
    the wrapper builds around the original for the member's name, and the
    interception primitive is invoked once for it. *)
Theorem wrap_plain_member (w : World) (nodule : loc) (name : pkey) (f : loc)
    (o : object) (pk : prop) (wr : wrapper) :
  nodule <> f ->
  own w nodule name = Some pk -> p_value pk = VRef f ->
  objs w !! f = Some o -> is_Some (o_call o) ->
  map_get (o_props o) _datadog_wrapped = None ->
  exists w1 p,
    wrap (One nodule) (One name) wr w = Ret tt w1 /\
    shimmer_calls w1 nodule name = S (shimmer_calls w nodule name) /\
    get_prop w1 nodule name = VRef p /\
    nodule <> p /\
    code_at w1 p = Some (wrapper_code wr (VRef f) (key_value name)).
Proof.
  intros Hne Hown Hpk Hf Hcall Hnone.
  destruct (wrap_intercepts w nodule name f o pk wr Hne Hown Hpk Hf Hcall Hnone)
    as (w1 & p & op & pk' & Hw1 & Hsh & Hnp & Hown1 & Hpk' & Hp & Hcode & _).
  exists w1, p. split; [done|]. split; [|split; [|split; [done|]]].
  - unfold shimmer_calls. rewrite Hsh, filter_app, length_app.
    rewrite filter_cons_True by done. cbn. lia.
  - unfold get_prop. by rewrite Hown1.
  - unfold code_at. by rewrite Hp.
Qed.

Lemma wrap_plain_member_witness :
  exists w1,
    wrap (One 0) (One (KStr "g")) (Factory 9) two_targets = Ret tt w1 /\
    shimmer_calls w1 0 (KStr "g") = 1%nat.
Proof.
  destruct (wrap_plain_member two_targets 0 (KStr "g") 2
              (function_object (Native 2)) (member (VRef 2)) (Factory 9))
    as (w1 & p & Hwrap & Hcalls & _).
  - lia.
  - reflexivity.
  - reflexivity.
  - reflexivity.
  - by eexists.
  - reflexivity.
  - exists w1. split; [exact Hwrap|exact Hcalls].
Defined.

(** X10. Staging is transparent.  When the [prepatch] capability of an
    instrumentation asks for one member that is a function without the
    indirection, [prepatch] completes, touches neither the registry nor the
    instrumented sets, and leaves the member a [prepatchWrapped] closure
    that calls the original and carries no patched marker; the
    interception primitive has been invoked once. *)
Theorem prepatch_stages_member {I : Integrations} (i : Instr) (moduleExports : value)
    (s : State) (pre : value -> M World (list (loc * list pkey))) (w0 : World)
    (target : loc) (name : pkey) (f : loc) (o : object) (pk : prop) :
  integration_prepatch i = Some pre ->
  pre moduleExports (world s) = Ret [(target, [name])] w0 ->
  target <> f ->
  own w0 target name = Some pk -> p_value pk = VRef f ->
  objs w0 !! f = Some o -> is_Some (o_call o) ->
  map_get (o_props o) _datadog_wrapped = None ->
  exists s' p,
    prepatch i moduleExports s = Ret tt s' /\
    same_registry s s' /\
    get_prop (world s') target name = VRef p /\
    code_at (world s') p = Some (PrepatchWrapped (VRef f)) /\
    fnToCall (world s') p = Some (VRef f) /\
    has_own (world s') p _datadog_patched = false /\
    shimmer_calls (world s') target name = S (shimmer_calls w0 target name).
Proof.
  intros Hpre Hlist Hne Hown Hpk Hf Hcall Hnone.
  destruct (wrap_intercepts w0 target name f o pk GetPrepatchWrappedFunction
              Hne Hown Hpk Hf Hcall Hnone)
    as (w1 & p & op & pk' & Hw1 & Hsh & Hnp & Hown1 & Hpk' & Hp & Hcode & Hwr).
  cbn in Hcode, Hwr.
  set (op' := {| o_call := o_call op;
                 o_props := map_delete (o_props op) _datadog_patched |}).
  set (w2 := store p op' w1).
  assert (Hrun :
    (let* patches := pre moduleExports in
     for_each patches (fun '(object, methods) =>
       for_each methods (fun name =>
         wrap (One object) (One name) GetPrepatchWrappedFunction >>
         let* member := get_member (VRef object) name in
         delete_property member _datadog_patched))) (world s) = Ret tt w2).
  { rewrite (bind_Ret _ _ _ _ _ Hlist). cbn [for_each].
    rewrite (bind_Ret _ _ w0 w2 tt); [done|].
    rewrite (bind_Ret _ _ w0 w2 tt); [done|].
    rewrite (bind_Ret _ _ _ _ _ Hw1).
    rewrite (bind_Ret _ _ _ _ _ (get_member_spec _ _ _ _ Hown1)), Hpk'.
    unfold delete_property. by rewrite Hp. }
  exists (set_world w2 s), p.
  split; [|split; [by repeat split|cbn [world set_world]]].
  { unfold prepatch. rewrite Hpre. unfold in_world. by rewrite Hrun. }
  split; [|split; [|split; [|split]]].
  - unfold w2. rewrite get_prop_store_ne by done. unfold get_prop. by rewrite Hown1.
  - unfold code_at, w2. rewrite objs_store_eq. by cbn.
  - unfold fnToCall, get_prop, own, w2. rewrite objs_store_eq. cbn [op' o_call o_props].
    rewrite Hcode, map_get_delete_ne by done. rewrite Hwr. done.
  - unfold has_own, own, w2. rewrite objs_store_eq. cbn [op' o_props].
    rewrite map_get_delete_eq. apply bool_decide_eq_false. by intros [? ?].
  - unfold shimmer_calls. cbn [w2 store shimmed]. rewrite Hsh, filter_app, length_app.
    rewrite filter_cons_True by done. cbn. lia.
Qed.

(** Instrumentation 3 stages [A.f]. *)
Lemma prepatch_stages_member_witness :
  exists s' p,
    prepatch (I := demo_integrations) 3 (VRef 0) fresh_instrumenter = Ret tt s' /\
    get_prop (world s') 0 (KStr "f") = VRef p /\
    fnToCall (world s') p = Some (VRef 1).
Proof.
  destruct (prepatch_stages_member (I := demo_integrations) 3 (VRef 0)
              fresh_instrumenter
              (fun moduleExports =>
                 match moduleExports with
                 | VRef l => ret [(l, [KStr "f"])]
                 | _ => ret []
                 end)
              two_targets 0 (KStr "f") 1 (function_object (Native 1)) (member (VRef 1)))
    as (s' & p & Hpre & _ & Hmember & _ & Hcall & _).
  - reflexivity.
  - reflexivity.
  - lia.
  - reflexivity.
  - reflexivity.
  - reflexivity.
  - by eexists.
  - reflexivity.
  - exists s', p. split; [exact Hpre|]. split; [exact Hmember|exact Hcall].
Defined.

Lemma map_set_set {K V} `{EqDecision K} (m : jsmap K V) k v v' :
  map_set (map_set m k v) k v' = map_set m k v'.
Proof.
  induction m as [|[k0 v0] m IH]; cbn.
  - by rewrite decide_True.
  - destruct (decide (k0 = k)) as [->|Hne]; cbn.
    + by rewrite decide_True.
    + rewrite decide_False by done. by rewrite IH.
Qed.

Section ExportWrapper.
Implicit Types (w : World) (m shim : loc) (k : pkey).


End ExportWrapper.





(** X13. [unwrapExport] never throws and tolerates repetition: it returns
    its argument, and a second call on the store the first one left
    changes nothing. *)
Theorem unwrapExport_idempotent (moduleExports : value) (w : World) :
  exists w1,
    unwrapExport moduleExports w = Ret moduleExports w1 /\
    unwrapExport moduleExports w1 = Ret moduleExports w1.
Proof.
  unfold unwrapExport.
  destruct moduleExports as [| |b|str|n|m]; try (exists w; by split).
  - exists w. destruct b; by split.
  - exists w. destruct str; by split.
  - cbn [truthy].
    destruct (truthy (get_prop w m _datadog_wrapper)) eqn:Ht.
    + assert (Hown : exists p, own w m _datadog_wrapper = Some p).
      { unfold get_prop in Ht. destruct (own w m _datadog_wrapper); [eauto|done]. }
      destruct Hown as (p & Hown).
      destruct (own_object _ _ _ _ Hown) as (om & Hm & Hp).
      set (om1 := {| o_call := o_call om;
                     o_props := map_set (o_props om) _datadog_wrapper
                                  {| p_value := VRef m;
                                     p_enumerable := p_enumerable p |} |}).
      assert (H1 : assign m _datadog_wrapper (VRef m) w = Ret tt (store m om1 w)).
      { unfold assign. rewrite Hown. by apply define_property_spec. }
      assert (Hown1 : own (store m om1 w) m _datadog_wrapper
                      = Some {| p_value := VRef m; p_enumerable := p_enumerable p |}).
      { unfold own. rewrite objs_store_eq. cbn. by rewrite map_get_set_eq. }
      assert (H2 : assign m _datadog_wrapper (VRef m) (store m om1 w)
                   = Ret tt (store m om1 w)).
      { unfold assign. rewrite Hown1. cbn [p_enumerable].
        rewrite (define_property_spec _ _ _ _ _ (objs_store_eq _ _ _)).
        cbn [om1 o_call o_props]. by rewrite map_set_set, store_store. }
      exists (store m om1 w). split.
      * rewrite (bind_Ret _ _ w (store m om1 w) tt); [done|].
        rewrite (bind_Ret _ _ w w (get_prop w m _datadog_wrapper)) by done.
        by rewrite Ht.
      * rewrite (bind_Ret _ _ (store m om1 w) (store m om1 w) tt); [done|].
        rewrite (bind_Ret _ _ _ (store m om1 w) (VRef m)).
        -- exact H2.
        -- cbn. unfold get_prop. by rewrite Hown1.
    + exists w. split.
      * rewrite (bind_Ret _ _ w w tt); [done|].
        rewrite (bind_Ret _ _ w w (get_prop w m _datadog_wrapper)) by done.
        by rewrite Ht.
      * rewrite (bind_Ret _ _ w w tt); [done|].
        rewrite (bind_Ret _ _ w w (get_prop w m _datadog_wrapper)) by done.
        by rewrite Ht.
Qed.

(** ** The environment wins over the caller *)

(** X14. For an integration name, a [DD_TRACE_<NAME>_ENABLED] that is set
    decides the [enabled] field of the resolved configuration, whatever
    the caller passed: it is [isTrue] of the value.  When the variable is
    absent the caller's field is kept. *)
Theorem getConfig_enabled_from_env {P : Platform} (requested : string)
    (config : option Config) :
  requested <> EmptyString ->
  enabled (getConfig requested config) =
  match cleanEnv (requested +:+ "_ENABLED") with
  | Some v => Some (isTrue (Some v))
  | None => enabled (default empty_config config)
  end.
Proof.
  intros Hname. unfold getConfig. rewrite bool_decide_eq_false_2 by done.
  destruct (cleanEnv (requested +:+ "_ENABLED"));
    destruct (isFalse _); try done;
    destruct (negb _); try done;
    by destruct (isTrue (cleanEnv _)).
Qed.

(** [use('cache', true)] under [DD_TRACE_CACHE_ENABLED=no]. *)
Lemma getConfig_enabled_from_env_witness :
  let P := {| plugins := [];
              env := fun key => if bool_decide (key = "DD_TRACE_CACHE_ENABLED")
                                then Some "no" else None;
              isTrue := demo_isTrue; isFalse := demo_isFalse;
              StringToNumber := demo_StringToNumber;
              loader_load := fun _ _ => ret tt; loader_reload := fun _ => ret tt;
              loader_preload := None |} in
  enabled (getConfig (P := P) "cache" (use_argument (UseBoolean true))) = Some false.
Proof.
  intros P.
  rewrite (getConfig_enabled_from_env (P := P) "cache" (use_argument (UseBoolean true)))
    by discriminate.
  reflexivity.
Defined.
